(** * gammapy.utils.interpolation

    A shallow embedding of [gammapy/utils/interpolation.py]: the interpolation
    scales ([LinearScale], [LogScale], [SqrtScale]), their unit-remembering base
    class [InterpolationScale], the wrapper [ScaledRegularGridInterpolator] and
    the helper [interpolate_likelihood_profile].

    Conventions of the embedding.
    - numpy's float64 numbers are the real numbers [R]: rounding, NaN and the
      infinities are outside the model.  [np.inf] as an upper clipping bound is
      therefore vacuous.
    - An [ndarray] is a shape together with its elements in C order.
    - A Python call that can raise returns a [result]; a method that mutates
      [self] returns the new object next to its result; warnings issued through
      [warnings.warn] are returned as a list.
    - astropy's units and scipy's two interpolation engines are libraries the
      module calls into: they are interfaces ([Units], [Engine]) here, and
      Module [Reference] gives one implementation of each, on which the
      examples run. *)

From Stdlib Require Import Reals Lra Lia List String Ascii Bool Arith ZArith.
Import ListNotations.
Open Scope R_scope.

(** ** Python values and exceptions *)

Inductive exn : Type :=
| ValueError (msg : string)
| TypeError (msg : string)
| AttributeError (msg : string)
| IndexError (msg : string)
| UnitConversionError
| NotModelled (what : string).

Inductive result (A : Type) : Type :=
| Ok (a : A)
| Raise (e : exn).
Arguments Ok {A} a.
Arguments Raise {A} e.

Definition bind {A B : Type} (r : result A) (k : A -> result B) : result B :=
  match r with
  | Ok a => k a
  | Raise e => Raise e
  end.

Notation "x <- r ;; k" := (bind r (fun x => k))
  (at level 61, r at next level, right associativity).

(** An optional parameter: [None] when the caller omits it. *)
Definition default {A : Type} (d : A) (given : option A) : A :=
  match given with
  | Some a => a
  | None => d
  end.

Inductive warning : Type :=
| Warning (msg : string).

(** Keyword arguments: a dict from names to Python values, in insertion order. *)
Inductive pyval : Type :=
| PyNone
| PyBool (b : bool)
| PyFloat (r : R)
| PyStr (s : string).

Definition kwargs : Type := list (string * pyval).

Fixpoint kw_get (k : string) (kw : kwargs) : option pyval :=
  match kw with
  | [] => None
  | (k', v) :: kw' => if String.eqb k k' then Some v else kw_get k kw'
  end.

(** [dict.setdefault(k, v)]: insert [k] only when it is absent. *)
Definition setdefault (k : string) (v : pyval) (kw : kwargs) : kwargs :=
  match kw_get k kw with
  | Some _ => kw
  | None => (kw ++ [(k, v)])%list
  end.

(** ** The fragment of numpy the module uses *)

Definition Rleb (x y : R) : bool := if Rle_dec x y then true else false.
Definition Rltb (x y : R) : bool := if Rlt_dec x y then true else false.

Record ndarray : Type := mk_ndarray { shape : list nat; flat : list R }.

Module np.

Definition size_of (sh : list nat) : nat := fold_right Nat.mul 1%nat sh.

Definition array1 (l : list R) : ndarray :=
  {| shape := [List.length l]; flat := l |}.

(** A number, or a 0-d array. *)
Definition scalar (x : R) : ndarray := {| shape := []; flat := [x] |}.

Definition elementwise (f : R -> R) (a : ndarray) : ndarray :=
  {| shape := shape a; flat := map f (flat a) |}.

Definition sign1 (x : R) : R :=
  if Rlt_dec x 0 then -1 else if Rlt_dec 0 x then 1 else 0.

Definition sign := elementwise sign1.
Definition sqrt := elementwise R_sqrt.sqrt.
Definition log := elementwise ln.
Definition exp := elementwise Rtrigo_def.exp.
Definition power (a : ndarray) (n : nat) := elementwise (fun x => x ^ n) a.

(** [np.clip(a, lo, np.inf)]. *)
Definition clip_inf (a : ndarray) (lo : R) : ndarray :=
  elementwise (fun x => Rmax x lo) a.

Fixpoint zip_mul (a b : list R) : list R :=
  match a, b with
  | x :: a', y :: b' => x * y :: zip_mul a' b'
  | _, _ => []
  end.

(** [a * b] for two arrays of one shape. *)
Definition multiply (a b : ndarray) : ndarray :=
  {| shape := shape a; flat := zip_mul (flat a) (flat b) |}.

(** [np.gradient(f)] for a 1-D array with unit spacing and [edge_order=1]:
    one-sided differences at the two ends, central differences inside.
    Fewer than two elements raise. *)
Fixpoint gradient_from (prev cur : R) (rest : list R) : list R :=
  match rest with
  | [] => [cur - prev]
  | next :: rest' => (next - prev) / 2 :: gradient_from cur next rest'
  end.

Definition gradient (f : list R) : result (list R) :=
  match f with
  | f0 :: f1 :: rest => Ok (f1 - f0 :: gradient_from f0 f1 rest)
  | _ => Raise (ValueError
      "Shape of array too small to calculate a numerical gradient, at least (edge_order + 1) elements are required.")
  end.

(** Broadcasting. *)
Definition broadcast_dim (a b : nat) : option nat :=
  if Nat.eqb a b then Some a
  else if Nat.eqb a 1 then Some b
  else if Nat.eqb b 1 then Some a
  else None.

Fixpoint broadcast_rev (a b : list nat) : option (list nat) :=
  match a, b with
  | [], _ => Some b
  | _, [] => Some a
  | x :: a', y :: b' =>
      match broadcast_dim x y, broadcast_rev a' b' with
      | Some d, Some r => Some (d :: r)
      | _, _ => None
      end
  end.

Definition broadcast_shape (a b : list nat) : option (list nat) :=
  option_map (@rev nat) (broadcast_rev (rev a) (rev b)).

Fixpoint broadcast_shapes (shs : list (list nat)) : option (list nat) :=
  match shs with
  | [] => Some []
  | sh :: shs' =>
      match broadcast_shapes shs' with
      | Some r => broadcast_shape sh r
      | None => None
      end
  end.

Fixpoint chunks (n c : nat) (l : list R) : list (list R) :=
  match n with
  | O => []
  | S n' => firstn c l :: chunks n' c (skipn c l)
  end.

(** Elements of an array of shape [src] stretched to shape [tgt] (both of one
    rank, [src] holding 1 wherever it differs from [tgt]). *)
Fixpoint stretch (src tgt : list nat) (data : list R) : list R :=
  match src, tgt with
  | d :: src', n :: tgt' =>
      if Nat.eqb d n
      then List.concat (map (stretch src' tgt') (chunks d (size_of src') data))
      else List.concat (repeat (stretch src' tgt' data) n)
  | _, _ => data
  end.

Definition broadcast_to (a : ndarray) (tgt : list nat) : ndarray :=
  let pad := repeat 1%nat (List.length tgt - List.length (shape a)) in
  {| shape := tgt; flat := stretch (pad ++ shape a) tgt (flat a) |}.

Definition broadcast_arrays (arrs : list ndarray) : result (list ndarray) :=
  match broadcast_shapes (map shape arrs) with
  | Some sh => Ok (map (fun a => broadcast_to a sh) arrs)
  | None => Raise (ValueError
      "shape mismatch: objects cannot be broadcast to a single shape")
  end.

(** [np.stack([a.flat for a in arrs]).T]: row [j] holds element [j] of every
    array. *)
Definition stack_flat_T (arrs : list ndarray) : result ndarray :=
  match arrs with
  | [] => Raise (ValueError "need at least one array to stack")
  | a0 :: _ =>
      let n := List.length (flat a0) in
      if forallb (fun a => Nat.eqb (List.length (flat a)) n) arrs
      then Ok {| shape := [n; List.length arrs];
                 flat := flat_map (fun j => map (fun a => nth j (flat a) 0) arrs)
                                  (seq 0 n) |}
      else Raise (ValueError "all input arrays must have the same shape")
  end.

Definition reshape (a : ndarray) (sh : list nat) : result ndarray :=
  if Nat.eqb (List.length (flat a)) (size_of sh)
  then Ok {| shape := sh; flat := flat a |}
  else Raise (ValueError "cannot reshape array").

End np.

(** ** astropy units *)

(** What the module needs of [astropy.units]: a type of units and, for two
    units, the factor that converts a magnitude from the first to the second
    when they are convertible. *)
Class Units : Type := {
  unit : Type;
  conversion : unit -> unit -> option R
}.

(** ** scipy's interpolation engines *)

(** What the module needs of [scipy.interpolate]: the two classes it
    instantiates, with the arguments it passes them.  [None] as a method
    stands for an omitted argument. *)
Class Engine : Type := {
  RegularGridInterpolator : Type;
  RegularGridInterpolator_init :
    list ndarray -> ndarray -> kwargs -> result RegularGridInterpolator;
  RegularGridInterpolator_call :
    RegularGridInterpolator -> ndarray -> option string -> kwargs -> result ndarray;
  interp1d : Type;
  interp1d_init : ndarray -> ndarray -> Z -> result interp1d;
  interp1d_call : interp1d -> ndarray -> result ndarray
}.

Section Interpolation.

Context {U : Units} {E : Engine}.

(** A value handed to the module: a plain array or a [Quantity]. *)
Inductive value : Type :=
| Arr (a : ndarray)
| Qty (a : ndarray) (u : unit).

Definition magnitude (v : value) : ndarray :=
  match v with
  | Arr a => a
  | Qty a _ => a
  end.

Definition unit_of (v : value) : option unit :=
  match v with
  | Arr _ => None
  | Qty _ u => Some u
  end.

(** [values.to_value(unit)]. *)
Definition to_value (v : value) (target : unit) : result ndarray :=
  match v with
  | Arr _ => Raise (AttributeError "'numpy.ndarray' object has no attribute 'to_value'")
  | Qty a u =>
      match conversion u target with
      | Some k => Ok (np.elementwise (fun x => x * k) a)
      | None => Raise UnitConversionError
      end
  end.

(** ** Interpolation scales *)

Inductive scale_class : Type := LinearScale | LogScale | SqrtScale.

(** An instance: its class and the [_unit] attribute, absent until set. *)
Record InterpolationScale : Type := mk_scale {
  cls : scale_class;
  _unit : option unit
}.

Definition new_scale (c : scale_class) : InterpolationScale :=
  {| cls := c; _unit := None |}.

(** [np.finfo(np.float32).tiny], which is 2^-126. *)
Definition tiny : R := / 2 ^ 126.

Definition _scale (c : scale_class) (values : ndarray) : ndarray :=
  match c with
  | LinearScale => values
  | LogScale => np.log (np.clip_inf values tiny)
  | SqrtScale =>
      let sign := np.sign values in
      np.multiply sign (np.sqrt (np.multiply sign values))
  end.

Definition is_tiny (output : R) : bool := Rleb (Rabs output - tiny) tiny.

(** In [LogScale._inverse], [np.exp] of a 0-d array is a numpy scalar, and the
    item assignment [output[is_tiny] = 0.0] on a scalar raises before the
    warning is issued. *)
Definition _inverse (c : scale_class) (values : ndarray)
  : result (ndarray * list warning) :=
  match c with
  | LinearScale => Ok (values, [])
  | LogScale =>
      let output := np.exp values in
      if existsb is_tiny (flat output)
      then match shape output with
           | [] => Raise (TypeError
               "'numpy.float64' object does not support item assignment")
           | _ :: _ =>
               Ok (np.elementwise (fun o => if is_tiny o then 0 else o) output,
                   [Warning "Interpolated values reached float32 precision limit"])
           end
      else Ok (output, [])
  | SqrtScale => Ok (np.power values 2, [])
  end.

(** [InterpolationScale.__call__]. *)
Definition InterpolationScale_call (self : InterpolationScale) (values : value)
  : InterpolationScale * result ndarray :=
  match _unit self with
  | Some u => (self, a <- to_value values u ;; Ok (_scale (cls self) a))
  | None =>
      match values with
      | Qty a u => ({| cls := cls self; _unit := Some u |}, Ok (_scale (cls self) a))
      | Arr a => (self, Ok (_scale (cls self) a))
      end
  end.

(** [InterpolationScale.inverse]. *)
Definition InterpolationScale_inverse (self : InterpolationScale) (values : ndarray)
  : result (value * list warning) :=
  inverted <- _inverse (cls self) values ;;
  let (values, ws) := inverted in
  match _unit self with
  | Some u => Ok (Qty values u, ws)
  | None => Ok (Arr values, ws)
  end.

Definition invalid_scale_message (scale : string) : string :=
  ("Not a valid value scaling mode: '" ++ scale ++ "'.")%string.

Definition interpolation_scale (scale : string) : result InterpolationScale :=
  if existsb (String.eqb scale) ["lin"; "linear"]%string then Ok (new_scale LinearScale)
  else if String.eqb scale "log" then Ok (new_scale LogScale)
  else if String.eqb scale "sqrt" then Ok (new_scale SqrtScale)
  else Raise (ValueError (invalid_scale_message scale)).

(** ** ScaledRegularGridInterpolator *)

Record ScaledRegularGridInterpolator : Type := mk_interpolator {
  scale_points : list InterpolationScale;
  scale : InterpolationScale;
  axis : option Z;
  _interpolate : RegularGridInterpolator + interp1d
}.

(** [[interpolation_scale(scale) for scale in points_scale]]. *)
Fixpoint interpolation_scales (points_scale : list string)
  : result (list InterpolationScale) :=
  match points_scale with
  | [] => Ok []
  | name :: names =>
      s <- interpolation_scale name ;;
      ss <- interpolation_scales names ;;
      Ok (s :: ss)
  end.

(** [[scale(p) for scale, p in zip(scales, points)]]: every call may set the
    unit of its scale; the scales are returned as the loop leaves them. *)
Fixpoint scale_each (scales : list InterpolationScale) (points : list value)
  : list InterpolationScale * result (list ndarray) :=
  match scales, points with
  | s :: scales', p :: points' =>
      match InterpolationScale_call s p with
      | (s', Raise e) => (s' :: scales', Raise e)
      | (s', Ok a) =>
          let (scales'', r) := scale_each scales' points' in
          (s' :: scales'', l <- r ;; Ok (a :: l))
      end
  | _, _ => (scales, Ok [])
  end.

(** [ScaledRegularGridInterpolator.__init__]. *)
Definition ScaledRegularGridInterpolator_init
    (points : list value) (values : value) (points_scale : option (list string))
    (values_scale : option string) (extrapolate : option bool) (axis : option Z)
    (kw : kwargs)
  : result ScaledRegularGridInterpolator :=
  let values_scale := default "lin"%string values_scale in
  let extrapolate := default true extrapolate in
  let points_scale :=
    match points_scale with
    | None => repeat "lin"%string (List.length points)
    | Some names => names
    end in
  scale_points <- interpolation_scales points_scale ;;
  scale <- interpolation_scale values_scale ;;
  let (scale_points, r) := scale_each scale_points points in
  points_scaled <- r ;;
  let (scale, r) := InterpolationScale_call scale values in
  values_scaled <- r ;;
  let kw :=
    if extrapolate
    then setdefault "fill_value" PyNone (setdefault "bounds_error" (PyBool false) kw)
    else kw in
  match axis with
  | None =>
      interp <- RegularGridInterpolator_init points_scaled values_scaled kw ;;
      Ok (mk_interpolator scale_points scale axis (inl interp))
  | Some ax =>
      match points_scaled with
      | [] => Raise (IndexError "tuple index out of range")
      | p0 :: _ =>
          interp <- interp1d_init p0 values_scaled ax ;;
          Ok (mk_interpolator scale_points scale axis (inr interp))
      end
  end.

(** [np.clip(values, 0, np.inf)] on an array or a quantity. *)
Definition clip_at_zero (values : value) : value :=
  match values with
  | Arr a => Arr (np.clip_inf a 0)
  | Qty a u => Qty (np.clip_inf a 0) u
  end.

(** The two ways [__call__] invokes [self._interpolate]. *)
Definition _interpolate_nd (h : RegularGridInterpolator + interp1d)
    (points_interp : ndarray) (method : string) (kw : kwargs) : result ndarray :=
  match h with
  | inl rgi => RegularGridInterpolator_call rgi points_interp (Some method) kw
  | inr _ => Raise (TypeError "__call__() takes 2 positional arguments but 3 were given")
  end.

Definition _interpolate_1d (h : RegularGridInterpolator + interp1d)
    (x : ndarray) : result ndarray :=
  match h with
  | inl rgi => RegularGridInterpolator_call rgi x None []
  | inr f => interp1d_call f x
  end.

(** The body of [__call__] after the query points went through their scales:
    interpolation and back-scaling, before clipping. *)
Definition interpolate_scaled (self : ScaledRegularGridInterpolator)
    (points : list ndarray) (method : string) (kw : kwargs)
  : result (value * list warning) :=
  match axis self with
  | None =>
      points <- np.broadcast_arrays points ;;
      points_interp <- np.stack_flat_T points ;;
      values <- _interpolate_nd (_interpolate self) points_interp method kw ;;
      values <- np.reshape values (shape (hd (mk_ndarray [] []) points)) ;;
      InterpolationScale_inverse (scale self) values
  | Some _ =>
      match points with
      | [] => Raise (IndexError "tuple index out of range")
      | p0 :: _ =>
          values <- _interpolate_1d (_interpolate self) p0 ;;
          InterpolationScale_inverse (scale self) values
      end
  end.

(** [ScaledRegularGridInterpolator.__call__]: the interpolator as the call
    leaves it, the warnings issued, and the value returned or the exception
    raised. *)
Definition ScaledRegularGridInterpolator_call
    (self : ScaledRegularGridInterpolator) (points : list value)
    (method : option string) (clip : option bool) (kw : kwargs)
  : ScaledRegularGridInterpolator * list warning * result value :=
  let method := default "linear"%string method in
  let clip := default true clip in
  let (scale_points', r) := scale_each (scale_points self) points in
  let self' := mk_interpolator scale_points' (scale self) (axis self) (_interpolate self) in
  match points <- r ;; interpolate_scaled self points method kw with
  | Raise e => (self', [], Raise e)
  | Ok (values, ws) => (self', ws, Ok (if clip then clip_at_zero values else values))
  end.

(** [interpolate_likelihood_profile]. *)
Definition interpolate_likelihood_profile
    (value_scan : value) (dloglike_scan : list R) (interp_scale : option string)
  : result ScaledRegularGridInterpolator :=
  let interp_scale := default "sqrt"%string interp_scale in
  gradient <- np.gradient dloglike_scan ;;
  let sign := map np.sign1 gradient in
  ScaledRegularGridInterpolator_init
    [value_scan] (Arr (np.multiply (np.array1 sign) (np.array1 dloglike_scan)))
    None (Some interp_scale) None None [].

(** ** Vocabulary of the properties *)

(** A value sent through a scale and back, as a test of the scale does it. *)
Definition forward_backward (s : InterpolationScale) (x : value)
  : result (value * list warning) :=
  let (s', r) := InterpolationScale_call s x in
  y <- r ;; InterpolationScale_inverse s' y.

(** The interpolators a given one can become through queries. *)
Inductive reachable (start : ScaledRegularGridInterpolator)
  : ScaledRegularGridInterpolator -> Prop :=
| reach_start : reachable start start
| reach_call (self : ScaledRegularGridInterpolator) (points : list value)
    (method : option string) (clip : option bool) (kw : kwargs) :
    reachable start self ->
    reachable start
      (fst (fst (ScaledRegularGridInterpolator_call self points method clip kw))).

(** No element below zero. *)
Definition nonnegative (v : value) : Prop :=
  Forall (fun x => 0 <= x) (flat (magnitude v)).

(** The unit of the first quantity among the arguments of successive calls. *)
Fixpoint first_unit (calls : list value) : option unit :=
  match calls with
  | [] => None
  | Qty _ u :: _ => Some u
  | Arr _ :: calls' => first_unit calls'
  end.

(** The scales [scale_each] leaves behind, and the arrays it returns, when
    every scale is fresh. *)
Definition remembering (cs : list scale_class) (points : list value)
  : list InterpolationScale :=
  map (fun cp => mk_scale (fst cp) (unit_of (snd cp))) (combine cs points)
  ++ map new_scale (skipn (List.length points) cs).

Definition scaled_grid (cs : list scale_class) (points : list value) : list ndarray :=
  map (fun cp => _scale (fst cp) (magnitude (snd cp))) (combine cs points).

(** A scale after some calls, next to the scale before them: of the same
    class, and with the unit it had, if it had one. *)
Definition remembers (before after : InterpolationScale) : Prop :=
  cls after = cls before
  /\ forall u, _unit before = Some u -> _unit after = Some u.

End Interpolation.

(** The options the engine is built with. *)
Definition engine_options (extrapolate : option bool) (kw : kwargs) : kwargs :=
  if default true extrapolate
  then setdefault "fill_value" PyNone (setdefault "bounds_error" (PyBool false) kw)
  else kw.


(** The closed set of scale names, as the documentation lists it. *)
Definition spec_scale_names : list (string * scale_class) :=
  [("lin", LinearScale); ("linear", LinearScale);
   ("log", LogScale); ("sqrt", SqrtScale)]%string.

Fixpoint spec_scale_class_in (table : list (string * scale_class)) (name : string)
  : option scale_class :=
  match table with
  | [] => None
  | (n, c) :: table' => if String.eqb name n then Some c else spec_scale_class_in table' name
  end.

Definition spec_scale_class : string -> option scale_class :=
  spec_scale_class_in spec_scale_names.

Definition invalid_name (name : string) : bool :=
  match spec_scale_class name with
  | Some _ => false
  | None => true
  end.

(** What one element becomes on the way through the log scale and back. *)
Definition log_floor (o : R) : R := if Rleb o (2 * tiny) then 0 else o.

(** Evenly spaced parameter values, and a parabola with its minimum at [m]
    sampled on parameter values. *)
Definition uniform_grid (x0 h : R) (n : nat) : list R :=
  map (fun i => x0 + h * INR i) (seq 0 n).

Definition parabola (a m : R) (xs : list R) : list R :=
  map (fun x => a * (x - m) ^ 2) xs.

(** A scan whose values strictly rise, or strictly fall, from one element to
    the next. *)
Fixpoint rising (l : list R) : Prop :=
  match l with
  | x :: (y :: _) as l' => x < y /\ rising l'
  | _ => True
  end.

Fixpoint falling (l : list R) : Prop :=
  match l with
  | x :: (y :: _) as l' => y < x /\ falling l'
  | _ => True
  end.

(** What one element becomes under [SqrtScale._scale] and under
    [LogScale._scale]. *)
Definition signed_sqrt (x : R) : R := np.sign1 x * sqrt (np.sign1 x * x).

Definition clipped_log (x : R) : R := ln (Rmax x tiny).

Definition contains (needle hay : string) : Prop :=
  exists before after : string, hay = (before ++ needle ++ after)%string.

(** ** Reference implementations of the two interfaces *)

Module Reference.

(** *** Units: three energies and two lengths *)

Inductive ref_unit : Type := TeV | GeV | MeV | metre | cm.

Definition is_energy (u : ref_unit) : bool :=
  match u with
  | TeV | GeV | MeV => true
  | metre | cm => false
  end.

(** Size of a unit in MeV or in cm. *)
Definition unit_size (u : ref_unit) : R :=
  match u with
  | TeV => 1000000
  | GeV => 1000
  | MeV => 1
  | metre => 100
  | cm => 1
  end.

Definition ref_conversion (u target : ref_unit) : option R :=
  if Bool.eqb (is_energy u) (is_energy target)
  then Some (unit_size u / unit_size target)
  else None.

Definition units : Units := {| unit := ref_unit; conversion := ref_conversion |}.

(** *** Piecewise-linear interpolation on a strictly ascending grid *)

(** [np.searchsorted(grid, x)]: how many grid points lie strictly below [x]. *)
Definition searchsorted (grid : list R) (x : R) : nat :=
  List.length (filter (fun g => Rltb g x) grid).

Fixpoint ascending (l : list R) : bool :=
  match l with
  | x :: (y :: _) as l' => Rltb x y && ascending l'
  | _ => true
  end.

Definition truthy (v : pyval) : bool :=
  match v with
  | PyNone => false
  | PyBool b => b
  | PyFloat r => negb (Rleb r 0 && Rleb 0 r)
  | PyStr s => negb (String.eqb s "")
  end.

Definition out_of_range (grid : list R) (x : R) : bool :=
  Rltb x (hd 0 grid) || Rltb (last grid 0) x.

(** **** RegularGridInterpolator, for grids with one value per node and at
    least two points on every axis *)

Inductive fill : Type :=
| FillNan
| FillExtrapolate
| FillValue (r : R).

Record rgi : Type := mk_rgi {
  rgi_grid : list (list R);
  rgi_values : list R;
  rgi_method : string;
  rgi_bounds_error : bool;
  rgi_fill_value : fill
}.

Definition known_method (method : string) : bool :=
  existsb (String.eqb method) ["linear"; "nearest"]%string.

Definition rgi_init (points : list ndarray) (values : ndarray) (kw : kwargs)
  : result rgi :=
  if negb (forallb (fun kv => existsb (String.eqb (fst kv))
                                ["method"; "bounds_error"; "fill_value"]%string) kw)
  then Raise (TypeError "__init__() got an unexpected keyword argument")
  else
    method <- match kw_get "method" kw with
              | None => Ok "linear"%string
              | Some (PyStr s) => Ok s
              | Some _ => Raise (ValueError "Method is not defined")
              end ;;
    if negb (known_method method) then Raise (ValueError "Method is not defined")
    else
      let bounds_error := match kw_get "bounds_error" kw with
                          | None => true
                          | Some v => truthy v
                          end in
      if Nat.ltb (List.length (shape values)) (List.length points)
      then Raise (ValueError "There are more point arrays than values has dimensions")
      else
        fill_value <- match kw_get "fill_value" kw with
                      | None => Ok FillNan
                      | Some PyNone => Ok FillExtrapolate
                      | Some (PyFloat r) => Ok (FillValue r)
                      | Some (PyBool b) => Ok (FillValue (if b then 1 else 0))
                      | Some (PyStr _) => Raise (ValueError
                          "fill_value must be either 'None' or of a type compatible with values")
                      end ;;
        if negb (forallb (fun p => ascending (flat p)) points)
        then Raise (ValueError "The points must be strictly ascending")
        else if negb (forallb (fun p => Nat.eqb (List.length (shape p)) 1) points)
        then Raise (ValueError "The points must be 1-dimensional")
        else if negb (forallb (fun pn => Nat.eqb (List.length (flat (fst pn))) (snd pn))
                        (combine points (shape values)))
        then Raise (ValueError "The numbers of points and of values differ")
        else if negb (Nat.eqb (List.length (shape values)) (List.length points))
        then Raise (NotModelled "values with trailing dimensions")
        else if negb (forallb (fun p => Nat.leb 2 (List.length (flat p))) points)
        then Raise (NotModelled "an axis with fewer than two points")
        else Ok (mk_rgi (map flat points) (flat values) method bounds_error fill_value).

(** Index of the cell of [grid] used for [x], and the position of [x] in it. *)
Definition find_index (grid : list R) (x : R) : nat :=
  Nat.min (searchsorted grid x - 1) (List.length grid - 2).

Definition norm_distance (grid : list R) (i : nat) (x : R) : R :=
  (x - nth i grid 0) / (nth (S i) grid 0 - nth i grid 0).

(** Slice [j] along the first axis of values whose remaining axes hold
    [stride] elements. *)
Definition slice (stride j : nat) (vals : list R) : list R :=
  firstn stride (skipn (j * stride) vals).

Fixpoint evaluate_linear (grid : list (list R)) (vals : list R) (x : list R) : R :=
  match grid, x with
  | g :: grid', xi :: x' =>
      let i := find_index g xi in
      let t := norm_distance g i xi in
      let stride := np.size_of (map (@List.length R) grid') in
      (1 - t) * evaluate_linear grid' (slice stride i vals) x'
      + t * evaluate_linear grid' (slice stride (S i) vals) x'
  | _, _ => nth 0 vals 0
  end.

Fixpoint evaluate_nearest (grid : list (list R)) (vals : list R) (x : list R) : R :=
  match grid, x with
  | g :: grid', xi :: x' =>
      let i := find_index g xi in
      let stride := np.size_of (map (@List.length R) grid') in
      let j := if Rleb (norm_distance g i xi) (1 / 2) then i else S i in
      evaluate_nearest grid' (slice stride j vals) x'
  | _, _ => nth 0 vals 0
  end.

Definition row_out_of_bounds (grid : list (list R)) (x : list R) : bool :=
  existsb (fun gx => out_of_range (fst gx) (snd gx)) (combine grid x).

Definition rgi_point (self : rgi) (method : string) (x : list R) : result R :=
  let inside :=
    if String.eqb method "linear"
    then evaluate_linear (rgi_grid self) (rgi_values self) x
    else evaluate_nearest (rgi_grid self) (rgi_values self) x in
  if negb (rgi_bounds_error self) && row_out_of_bounds (rgi_grid self) x
  then match rgi_fill_value self with
       | FillExtrapolate => Ok inside
       | FillValue r => Ok r
       | FillNan => Raise (NotModelled "nan")
       end
  else Ok inside.

Fixpoint collect {A : Type} (l : list (result A)) : result (list A) :=
  match l with
  | [] => Ok []
  | r :: l' => a <- r ;; rest <- collect l' ;; Ok (a :: rest)
  end.

Definition rgi_call (self : rgi) (xi : ndarray) (method : option string)
    (kw : kwargs) : result ndarray :=
  match kw with
  | _ :: _ => Raise (TypeError "__call__() got an unexpected keyword argument")
  | [] =>
      let method := match method with
                    | None => rgi_method self
                    | Some name => name
                    end in
      if negb (known_method method) then Raise (ValueError "Method is not defined")
      else
        match shape xi with
        | [n; k] =>
            if negb (Nat.eqb k (List.length (rgi_grid self)))
            then Raise (ValueError "The requested sample points xi have the wrong dimension")
            else
              let rows := np.chunks n k (flat xi) in
              if rgi_bounds_error self
                 && existsb (row_out_of_bounds (rgi_grid self)) rows
              then Raise (ValueError "One of the requested xi is out of bounds")
              else
                out <- collect (map (rgi_point self method) rows) ;;
                Ok {| shape := [n]; flat := out |}
        | _ => Raise (NotModelled "sample points that are not a 2-D array")
        end
  end.

(** **** interp1d, for 1-D values over a strictly ascending grid *)

Record i1d : Type := mk_i1d { i1d_x : list R; i1d_y : list R }.

Definition i1d_init (x y : ndarray) (axis : Z) : result i1d :=
  if negb (Nat.eqb (List.length (shape x)) 1)
  then Raise (ValueError "the x array must have exactly one dimension.")
  else match shape y with
       | [] => Raise (ValueError "the y array must have at least one dimension.")
       | [_] =>
           if negb (ascending (flat x))
           then Raise (NotModelled "a grid that is not strictly ascending")
           else if negb (Nat.eqb (List.length (flat x)) (List.length (flat y)))
           then Raise (ValueError
             "x and y arrays must be equal in length along interpolation axis.")
           else if Nat.ltb (List.length (flat x)) 2
           then Raise (ValueError "x and y arrays must have at least 2 entries")
           else Ok (mk_i1d (flat x) (flat y))
       | _ => Raise (NotModelled "values with more than one dimension")
       end.

Definition i1d_point (self : i1d) (x_new : R) : R :=
  let hi := Nat.min (Nat.max (searchsorted (i1d_x self) x_new) 1)
                    (List.length (i1d_x self) - 1) in
  let lo := (hi - 1)%nat in
  let slope := (nth hi (i1d_y self) 0 - nth lo (i1d_y self) 0)
               / (nth hi (i1d_x self) 0 - nth lo (i1d_x self) 0) in
  slope * (x_new - nth lo (i1d_x self) 0) + nth lo (i1d_y self) 0.

Definition i1d_call (self : i1d) (x_new : ndarray) : result ndarray :=
  if existsb (fun x => Rltb x (hd 0 (i1d_x self))) (flat x_new)
  then Raise (ValueError "A value in x_new is below the interpolation range.")
  else if existsb (fun x => Rltb (last (i1d_x self) 0) x) (flat x_new)
  then Raise (ValueError "A value in x_new is above the interpolation range.")
  else Ok (np.elementwise (i1d_point self) x_new).

Definition engine : Engine := {|
  RegularGridInterpolator := rgi;
  RegularGridInterpolator_init := rgi_init;
  RegularGridInterpolator_call := rgi_call;
  interp1d := i1d;
  interp1d_init := i1d_init;
  interp1d_call := i1d_call
|}.

End Reference.

(** * Properties *)

(** ** Arithmetic of the scales *)

Lemma Rleb_true (x y : R) : x <= y -> Rleb x y = true.
Proof. intros H. unfold Rleb. destruct (Rle_dec x y); [reflexivity | contradiction]. Qed.

Lemma Rleb_false (x y : R) : y < x -> Rleb x y = false.
Proof. intros H. unfold Rleb. destruct (Rle_dec x y); [lra | reflexivity]. Qed.

Lemma Rltb_true (x y : R) : x < y -> Rltb x y = true.
Proof. intros H. unfold Rltb. destruct (Rlt_dec x y); [reflexivity | contradiction]. Qed.

Lemma Rltb_false (x y : R) : y <= x -> Rltb x y = false.
Proof. intros H. unfold Rltb. destruct (Rlt_dec x y); [lra | reflexivity]. Qed.

Lemma tiny_pos : 0 < tiny.
Proof. unfold tiny. apply Rinv_0_lt_compat, pow_lt. lra. Qed.

Lemma tiny_small : 2 * tiny <= 1.
Proof.
  unfold tiny.
  assert (H : 2 <= 2 ^ 126).
  { change (2 ^ 126) with (2 * 2 ^ 125).
    assert (1 <= 2 ^ 125) by (apply pow_R1_Rle; lra). lra. }
  assert (Hp : 0 < 2 ^ 126) by lra.
  apply (Rmult_le_reg_r (2 ^ 126)); [exact Hp |].
  rewrite Rmult_assoc, Rinv_l by lra. lra.
Qed.

Lemma zip_mul_map (f g : R -> R) (l : list R) :
  np.zip_mul (map f l) (map g l) = map (fun x => f x * g x) l.
Proof. induction l as [| x l IH]; simpl; [reflexivity | now rewrite IH]. Qed.

Lemma zip_mul_map_l (f : R -> R) (l : list R) :
  np.zip_mul (map f l) l = map (fun x => f x * x) l.
Proof. induction l as [| x l IH]; simpl; [reflexivity | now rewrite IH]. Qed.

(** The signed square root, squared, is the absolute value. *)
Lemma signed_sqrt_squared (x : R) :
  (np.sign1 x * sqrt (np.sign1 x * x)) ^ 2 = Rabs x.
Proof.
  unfold np.sign1.
  destruct (Rlt_dec x 0) as [Hneg | Hnneg].
  - rewrite Rabs_left by exact Hneg.
    replace (-1 * x) with (- x) by lra.
    replace ((-1 * sqrt (- x)) ^ 2) with (sqrt (- x) * sqrt (- x)) by (simpl; lra).
    apply sqrt_sqrt. lra.
  - destruct (Rlt_dec 0 x) as [Hpos | Hnpos].
    + rewrite Rabs_right by lra.
      replace (1 * x) with x by lra.
      replace ((1 * sqrt x) ^ 2) with (sqrt x * sqrt x) by (simpl; lra).
      apply sqrt_sqrt. lra.
    + assert (x = 0) by lra. subst x. rewrite Rabs_R0. simpl. lra.
Qed.

Lemma is_tiny_spec (o : R) : 0 <= o -> is_tiny o = Rleb o (2 * tiny).
Proof.
  intros Ho. unfold is_tiny. rewrite Rabs_right by lra.
  unfold Rleb. destruct (Rle_dec (o - tiny) tiny), (Rle_dec o (2 * tiny)); try reflexivity; lra.
Qed.

Lemma is_tiny_exp (y : R) : is_tiny (exp y) = Rleb (exp y) (2 * tiny).
Proof. apply is_tiny_spec. left. apply exp_pos. Qed.

Lemma log_floor_round_trip (x : R) :
  log_floor (exp (ln (Rmax x tiny))) = log_floor x.
Proof.
  pose proof tiny_pos as Ht.
  rewrite exp_ln by (apply Rlt_le_trans with tiny; [exact Ht | apply Rmax_r]).
  unfold log_floor, Rmax.
  destruct (Rle_dec x tiny) as [Hle | Hgt].
  - rewrite !Rleb_true by lra. reflexivity.
  - reflexivity.
Qed.

Lemma existsb_map {A B : Type} (f : A -> B) (p : B -> bool) (l : list A) :
  existsb p (map f l) = existsb (fun a => p (f a)) l.
Proof. induction l as [| a l IH]; simpl; [reflexivity | now rewrite IH]. Qed.

Lemma existsb_pointwise {A : Type} (p q : A -> bool) (l : list A) :
  (forall a, p a = q a) -> existsb p l = existsb q l.
Proof.
  intros H. induction l as [| a l IH]; simpl; [reflexivity | now rewrite H, IH].
Qed.

Lemma map_floor_when_none (p : R -> bool) (l : list R) :
  existsb p l = false -> map (fun o => if p o then 0 else o) l = l.
Proof.
  induction l as [| o l IH]; simpl; intros H; [reflexivity |].
  apply orb_false_iff in H. destruct H as [Ho Hl].
  rewrite Ho, IH by exact Hl. reflexivity.
Qed.

(** The log scale's inverse on an array of at least one dimension, element by
    element. *)
Lemma log_inverse_elements (values : ndarray) :
  shape values <> [] ->
  _inverse LogScale values
  = Ok (np.elementwise (fun y => log_floor (exp y)) values,
        if existsb (fun y => Rleb (exp y) (2 * tiny)) (flat values)
        then [Warning "Interpolated values reached float32 precision limit"]
        else []).
Proof.
  intros Hshape.
  unfold _inverse, np.exp, np.elementwise. simpl.
  rewrite existsb_map.
  rewrite (existsb_pointwise _ (fun y => Rleb (exp y) (2 * tiny)))
    by (intros y; apply is_tiny_exp).
  destruct (existsb (fun y => Rleb (exp y) (2 * tiny)) (flat values)) eqn:Hany.
  - destruct (shape values) as [| d sh] eqn:Hsh; [contradiction |].
    do 3 f_equal. rewrite map_map. apply map_ext. intros y.
    unfold log_floor. now rewrite is_tiny_exp.
  - do 3 f_equal. apply map_ext_in. intros y Hy.
    unfold log_floor.
    destruct (Rleb (exp y) (2 * tiny)) eqn:Hy'; [| reflexivity].
    exfalso. assert (Hex : existsb (fun y => Rleb (exp y) (2 * tiny)) (flat values) = true).
    { apply existsb_exists. exists y. split; assumption. }
    congruence.
Qed.

(** On a 0-d array the inverse raises when the element is at the floor, and
    returns the exponential otherwise. *)
Lemma log_inverse_scalar (y : R) :
  _inverse LogScale (np.scalar y)
  = if Rleb (exp y) (2 * tiny)
    then Raise (TypeError "'numpy.float64' object does not support item assignment")
    else Ok (np.scalar (exp y), []).
Proof.
  unfold _inverse, np.exp, np.elementwise, np.scalar. simpl.
  rewrite is_tiny_exp. now destruct (Rleb (exp y) (2 * tiny)).
Qed.

(** A number at the clip floor of the forward transform. *)
Lemma log_inverse_scalar_at_floor :
  _inverse LogScale (np.scalar (ln tiny))
  = Raise (TypeError "'numpy.float64' object does not support item assignment").
Proof.
  pose proof tiny_pos as Ht.
  rewrite log_inverse_scalar, exp_ln, Rleb_true by lra. reflexivity.
Qed.

Lemma log_floor_test_clip (x : R) :
  Rleb (exp (ln (Rmax x tiny))) (2 * tiny) = Rleb x (2 * tiny).
Proof.
  pose proof tiny_pos as Ht.
  rewrite exp_ln by (apply Rlt_le_trans with tiny; [exact Ht | apply Rmax_r]).
  unfold Rmax. destruct (Rle_dec x tiny) as [Hle | Hgt]; [| reflexivity].
  rewrite !Rleb_true by lra. reflexivity.
Qed.

(** ** Scales *)

Section ScaleProperties.

Context {U : Units}.

(** C1 (as amended).  Sent forward and back through a fresh scale, a plain
    array [x] comes back as [x] itself for the linear scale and as [|x|] for
    the sqrt scale (so unchanged where [x >= 0], and with the sign lost where
    [x < 0]); for the log scale an array of at least one dimension comes back
    as [x] where [x > 2 * tiny] and as [0] where [x <= 2 * tiny], with the
    precision warning in that case. *)
Theorem scale_round_trip (x : ndarray) (d : nat) (sh : list nat) (xs : list R) :
  forward_backward (new_scale LinearScale) (Arr x) = Ok (Arr x, [])
  /\ forward_backward (new_scale SqrtScale) (Arr x)
     = Ok (Arr (np.elementwise Rabs x), [])
  /\ forward_backward (new_scale LogScale) (Arr {| shape := d :: sh; flat := xs |})
     = Ok (Arr {| shape := d :: sh; flat := map log_floor xs |},
           if existsb (fun v => Rleb v (2 * tiny)) xs
           then [Warning "Interpolated values reached float32 precision limit"]
           else []).
Proof.
  split; [reflexivity | split].
  - unfold forward_backward, InterpolationScale_call, InterpolationScale_inverse; simpl.
    do 3 f_equal. unfold np.power, np.multiply, np.elementwise; simpl.
    rewrite zip_mul_map_l, (map_map _ sqrt), zip_mul_map, map_map.
    f_equal. apply map_ext. intros v. rewrite <- signed_sqrt_squared. reflexivity.
  - unfold forward_backward, InterpolationScale_call, InterpolationScale_inverse, new_scale.
    cbn [_unit cls bind].
    rewrite log_inverse_elements by (simpl; discriminate).
    unfold _scale, np.log, np.clip_inf, np.elementwise; cbn [flat shape bind].
    rewrite !map_map, !existsb_map.
    rewrite (existsb_pointwise _ (fun v => Rleb v (2 * tiny)))
      by (intros v; apply log_floor_test_clip).
    do 4 f_equal. apply map_ext. intros v. apply log_floor_round_trip.
Qed.

(** C2 (as amended).  On an array of at least one dimension the inverse of
    the log scale does not raise.  It applies [exp] to every element and
    replaces by exactly [0] every result [o] with [|o| - tiny <= tiny], that is
    every [exp y <= 2 * tiny]: the threshold is twice [tiny], not [tiny].
    Larger results are returned as [exp y].  The warning is issued exactly when
    some element was replaced, and the unit of the scale, when it has one, is
    attached as for every scale. *)
Theorem log_inverse_floor (unit_memo : option unit) (d : nat) (sh : list nat)
    (ys : list R) :
  exists out : value,
    InterpolationScale_inverse (mk_scale LogScale unit_memo)
      {| shape := d :: sh; flat := ys |}
    = Ok (out,
          if existsb (fun y => Rleb (exp y) (2 * tiny)) ys
          then [Warning "Interpolated values reached float32 precision limit"]
          else [])
    /\ shape (magnitude out) = d :: sh
    /\ flat (magnitude out)
       = map (fun y => if Rleb (exp y) (2 * tiny) then 0 else exp y) ys
    /\ unit_of out = unit_memo.
Proof.
  unfold InterpolationScale_inverse. cbn [cls _unit].
  rewrite log_inverse_elements by (simpl; discriminate). cbn [bind flat].
  destruct unit_memo as [u |]; eexists; repeat split; reflexivity.
Qed.

Lemma unit_after_calls (calls : list value) (s : InterpolationScale) :
  _unit (fold_left (fun s v => fst (InterpolationScale_call s v)) calls s)
  = match _unit s with
    | Some u => Some u
    | None => first_unit calls
    end.
Proof.
  revert s. induction calls as [| v calls IH]; intros s; simpl.
  - destruct (_unit s); reflexivity.
  - rewrite IH. unfold InterpolationScale_call.
    destruct (_unit s) as [u |] eqn:Hs; simpl.
    + now rewrite Hs.
    + destruct v as [a | a u]; simpl; [now rewrite Hs | reflexivity].
Qed.

(** C8.  A scale without a unit that is called with a quantity records the
    quantity's unit and transforms its magnitude; called with a plain array it
    stays without unit.  A scale with a recorded unit converts every argument to
    that unit, transforms the magnitude and keeps its unit.  Over any sequence
    of calls on a fresh scale the recorded unit is therefore the unit of the
    first quantity.  The inverse wraps the result of the class's [_inverse] in
    the recorded unit, or returns it as a plain array when there is none; so a
    quantity sent forward and back through a fresh scale does what the same
    round trip on the plain array does, and returns its magnitude in the
    quantity's own unit. *)
Theorem unit_is_remembered (c : scale_class) (a y : ndarray) (u u0 : unit)
    (later : value) (calls : list value) :
  InterpolationScale_call (mk_scale c None) (Qty a u) = (mk_scale c (Some u), Ok (_scale c a))
  /\ InterpolationScale_call (mk_scale c None) (Arr a) = (mk_scale c None, Ok (_scale c a))
  /\ InterpolationScale_call (mk_scale c (Some u0)) later
     = (mk_scale c (Some u0), m <- to_value later u0 ;; Ok (_scale c m))
  /\ _unit (fold_left (fun s v => fst (InterpolationScale_call s v)) calls (new_scale c))
     = first_unit calls
  /\ InterpolationScale_inverse (mk_scale c (Some u0)) y
     = (inverted <- _inverse c y ;; Ok (Qty (fst inverted) u0, snd inverted))
  /\ InterpolationScale_inverse (mk_scale c None) y
     = (inverted <- _inverse c y ;; Ok (Arr (fst inverted), snd inverted))
  /\ forward_backward (new_scale c) (Qty a u)
     = (inverted <- _inverse c (_scale c a) ;; Ok (Qty (fst inverted) u, snd inverted))
  /\ forward_backward (new_scale c) (Arr a)
     = (inverted <- _inverse c (_scale c a) ;; Ok (Arr (fst inverted), snd inverted)).
Proof.
  repeat split; try reflexivity.
  - apply (unit_after_calls calls (new_scale c)).
  - unfold InterpolationScale_inverse; simpl. now destruct (_inverse c y) as [[out ws] |].
  - unfold InterpolationScale_inverse; simpl. now destruct (_inverse c y) as [[out ws] |].
  - unfold forward_backward, InterpolationScale_call, InterpolationScale_inverse; simpl.
    now destruct (_inverse c (_scale c a)) as [[out ws] |].
  - unfold forward_backward, InterpolationScale_call, InterpolationScale_inverse; simpl.
    now destruct (_inverse c (_scale c a)) as [[out ws] |].
Qed.

End ScaleProperties.

(** ** Selecting a scale by name *)

Lemma invalid_scale_message_names (name : string) :
  contains name (invalid_scale_message name).
Proof.
  exists "Not a valid value scaling mode: '"%string, "'."%string. reflexivity.
Qed.

Section InterpolatorProperties.

Context {U : Units} {E : Engine}.

Lemma interpolation_scale_spec (name : string) :
  interpolation_scale name
  = match spec_scale_class name with
    | Some c => Ok (new_scale c)
    | None => Raise (ValueError (invalid_scale_message name))
    end.
Proof.
  unfold interpolation_scale, spec_scale_class; simpl.
  destruct (String.eqb name "lin"); [reflexivity |].
  destruct (String.eqb name "linear"); [reflexivity |].
  destruct (String.eqb name "log"); [reflexivity |].
  destruct (String.eqb name "sqrt"); reflexivity.
Qed.

Lemma interpolation_scales_spec (names : list string) :
  match find invalid_name names with
  | Some bad => interpolation_scales names = Raise (ValueError (invalid_scale_message bad))
  | None => exists ss, interpolation_scales names = Ok ss
            /\ map (fun s => Some (cls s)) ss = map spec_scale_class names
  end.
Proof.
  induction names as [| name names IH]; simpl.
  - exists []. split; reflexivity.
  - rewrite interpolation_scale_spec. unfold invalid_name at 1.
    destruct (spec_scale_class name) as [c |] eqn:Hc; simpl; [| reflexivity].
    destruct (find invalid_name names) as [bad |].
    + now rewrite IH.
    + destruct IH as [ss [Hss Hcls]]. rewrite Hss. simpl.
      exists (new_scale c :: ss). split; [reflexivity |]. simpl. now rewrite Hcls.
Qed.

Lemma InterpolationScale_call_cls (s : InterpolationScale) (v : value) :
  cls (fst (InterpolationScale_call s v)) = cls s.
Proof.
  unfold InterpolationScale_call. destruct (_unit s); [reflexivity |]. destruct v; reflexivity.
Qed.

Lemma scale_each_cls (ss : list InterpolationScale) (points : list value) :
  map cls (fst (scale_each ss points)) = map cls ss.
Proof.
  revert points. induction ss as [| s ss IH]; intros [| p points]; simpl; try reflexivity.
  pose proof (InterpolationScale_call_cls s p) as Hs.
  destruct (InterpolationScale_call s p) as [s' [a | e]]; simpl in *.
  - specialize (IH points). destruct (scale_each ss points) as [ss' r]; simpl in *.
    now rewrite Hs, IH.
  - now rewrite Hs.
Qed.

Lemma find_app_last {A : Type} (p : A -> bool) (l : list A) (a : A) :
  find p (l ++ [a])
  = match find p l with
    | Some b => Some b
    | None => if p a then Some a else None
    end.
Proof.
  induction l as [| b l IH]; simpl; [reflexivity |].
  destruct (p b); [reflexivity | exact IH].
Qed.

(** What the constructor has done once both groups of names went through
    [interpolation_scale]. *)
Lemma init_scales (points : list value) (values : value)
    (points_scale : option (list string)) (values_scale : option string)
    (extrapolate : option bool) (axis : option Z) (kw : kwargs) :
  let names := default (repeat "lin"%string (List.length points)) points_scale in
  let vname := default "lin"%string values_scale in
  match find invalid_name (names ++ [vname]) with
  | Some bad =>
      ScaledRegularGridInterpolator_init points values points_scale values_scale
        extrapolate axis kw = Raise (ValueError (invalid_scale_message bad))
  | None =>
      forall it,
        ScaledRegularGridInterpolator_init points values points_scale values_scale
          extrapolate axis kw = Ok it ->
        map (fun s => Some (cls s)) (scale_points it) = map spec_scale_class names
        /\ Some (cls (scale it)) = spec_scale_class vname
  end.
Proof.
  intros names vname. rewrite find_app_last.
  unfold ScaledRegularGridInterpolator_init.
  replace (match points_scale with
           | Some names0 => names0
           | None => repeat "lin"%string (List.length points)
           end) with names by (destruct points_scale; reflexivity).
  fold vname.
  pose proof (interpolation_scales_spec names) as Hnames.
  destruct (find invalid_name names) as [bad |].
  - now rewrite Hnames.
  - destruct Hnames as [ss [Hss Hcls]]. rewrite Hss. simpl bind.
    rewrite interpolation_scale_spec. unfold invalid_name.
    destruct (spec_scale_class vname) as [c |] eqn:Hc; simpl bind; [| reflexivity].
    intros it Hit.
    pose proof (scale_each_cls ss points) as Hpts.
    destruct (scale_each ss points) as [ss' [ps |]]; simpl in Hit, Hpts; [| discriminate].
    pose proof (InterpolationScale_call_cls (new_scale c) values) as Hval.
    destruct (InterpolationScale_call (new_scale c) values) as [sc [vs |]]; simpl in Hit, Hval;
      [| discriminate].
    assert (Hfields : scale_points it = ss' /\ scale it = sc).
    { destruct axis as [ax |].
      - destruct ps as [| p0 ps]; [discriminate |].
        destruct (interp1d_init p0 vs ax); simpl in Hit; [| discriminate].
        injection Hit as <-. split; reflexivity.
      - destruct (RegularGridInterpolator_init ps vs _); simpl in Hit; [| discriminate].
        injection Hit as <-. split; reflexivity. }
    destruct Hfields as [-> ->]. split.
    + rewrite <- Hcls, <- (map_map cls Some), Hpts, map_map. reflexivity.
    + now rewrite Hval.
Qed.

(** C3.  [interpolation_scale] returns a fresh linear scale for ["lin"] and
    ["linear"], a log scale for ["log"] and a sqrt scale for ["sqrt"], and
    raises [ValueError] with a message containing the name for every other
    name.  The constructor sends every entry of [points_scale] (["lin"] for
    every axis when omitted) and then [values_scale] through it: the first
    invalid name makes the constructor raise that error, so no interpolator is
    returned; when an interpolator is returned, its scales are of the classes
    named. *)
Theorem scale_selected_by_name (points : list value) (values : value)
    (points_scale : option (list string)) (values_scale : option string)
    (extrapolate : option bool) (axis : option Z) (kw : kwargs) :
  let names := default (repeat "lin"%string (List.length points)) points_scale in
  let vname := default "lin"%string values_scale in
  (forall name,
      interpolation_scale name
      = match spec_scale_class name with
        | Some c => Ok (new_scale c)
        | None => Raise (ValueError (invalid_scale_message name))
        end
      /\ contains name (invalid_scale_message name))
  /\ (forall bad,
        find invalid_name (names ++ [vname]) = Some bad ->
        ScaledRegularGridInterpolator_init points values points_scale values_scale
          extrapolate axis kw = Raise (ValueError (invalid_scale_message bad)))
  /\ (forall it,
        ScaledRegularGridInterpolator_init points values points_scale values_scale
          extrapolate axis kw = Ok it ->
        map (fun s => Some (cls s)) (scale_points it) = map spec_scale_class names
        /\ Some (cls (scale it)) = spec_scale_class vname).
Proof.
  intros names vname.
  pose proof (init_scales points values points_scale values_scale extrapolate axis kw)
    as Hinit.
  cbv zeta in Hinit. fold names vname in Hinit.
  split; [| split].
  - intros name. split; [apply interpolation_scale_spec | apply invalid_scale_message_names].
  - intros bad Hbad. now rewrite Hbad in Hinit.
  - intros it Hit.
    destruct (find invalid_name (names ++ [vname])) as [bad |].
    + rewrite Hinit in Hit. discriminate.
    + now apply Hinit.
Qed.

End InterpolatorProperties.

(** ** Queries *)

Section QueryProperties.

Context {U : Units} {E : Engine}.

Lemma clip_at_zero_nonnegative (v : value) : nonnegative (clip_at_zero v).
Proof.
  unfold nonnegative. destruct v as [a | a u]; simpl;
    apply Forall_forall; intros x Hx; apply in_map_iff in Hx;
    destruct Hx as [y [<- _]]; apply Rmax_r.
Qed.

Lemma clip_at_zero_fixes_nonnegative (v : value) :
  nonnegative v -> clip_at_zero v = v.
Proof.
  unfold nonnegative. intros H.
  assert (Hmap : forall l, Forall (fun x => 0 <= x) l -> map (fun x => Rmax x 0) l = l).
  { induction 1 as [| x l Hx _ IH]; simpl; [reflexivity |].
    rewrite IH, Rmax_left by exact Hx. reflexivity. }
  destruct v as [[sh fl] | [sh fl] u]; simpl in *; unfold np.clip_inf, np.elementwise;
    simpl; now rewrite Hmap.
Qed.

(** The query, up to the clipping. *)
Lemma call_unfold (self : ScaledRegularGridInterpolator) (points : list value)
    (method : option string) (clip : option bool) (kw : kwargs) :
  ScaledRegularGridInterpolator_call self points method clip kw
  = let self' := mk_interpolator (fst (scale_each (scale_points self) points))
                   (scale self) (axis self) (_interpolate self) in
    match (points' <- snd (scale_each (scale_points self) points) ;;
           interpolate_scaled self points' (default "linear"%string method) kw) with
    | Raise e => (self', [], Raise e)
    | Ok (values, ws) =>
        (self', ws, Ok (if default true clip then clip_at_zero values else values))
    end.
Proof.
  unfold ScaledRegularGridInterpolator_call.
  destruct (scale_each (scale_points self) points) as [sp r]. reflexivity.
Qed.

(** C5.  A query with [clip=True], which is also what omitting [clip] means,
    returns the result of the same query with [clip=False] with every element
    below zero replaced by zero: none of its elements is negative.  With
    [clip=False] the back-scaled interpolation is returned as it is, negative
    elements included.  The interpolator and the warnings are the same either
    way. *)
Theorem clip_floors_at_zero (self : ScaledRegularGridInterpolator)
    (points : list value) (method : option string) (kw : kwargs) :
  let clipped := ScaledRegularGridInterpolator_call self points method (Some true) kw in
  let raw := ScaledRegularGridInterpolator_call self points method (Some false) kw in
  ScaledRegularGridInterpolator_call self points method None kw = clipped
  /\ fst clipped = fst raw
  /\ snd clipped = (v <- snd raw ;; Ok (clip_at_zero v))
  /\ (forall v, snd clipped = Ok v -> nonnegative v)
  /\ snd raw = (points' <- snd (scale_each (scale_points self) points) ;;
                out <- interpolate_scaled self points' (default "linear"%string method) kw ;;
                Ok (fst out)).
Proof.
  intros clipped raw. subst clipped raw. rewrite !call_unfold. cbv zeta.
  destruct (snd (scale_each (scale_points self) points)) as [points' | e]; simpl bind.
  - destruct (interpolate_scaled self points' (default "linear"%string method) kw)
      as [[values ws] | e]; simpl.
    + repeat split; try reflexivity.
      intros v Hv. injection Hv as <-. apply clip_at_zero_nonnegative.
    + repeat split; try reflexivity. intros v Hv. discriminate.
  - repeat split; try reflexivity. intros v Hv. discriminate.
Qed.

(** C9.  With [axis] set, the constructor returns the same interpolator, or
    raises the same exception, whatever [extrapolate] and the keyword options
    are, and a query returns the same interpolator, warnings and result
    whatever [method] and the keyword options are. *)
Theorem axis_mode_ignores_options (points : list value) (values : value)
    (points_scale : option (list string)) (values_scale : option string)
    (ax : Z) (extrapolate1 extrapolate2 : option bool) (kw1 kw2 : kwargs)
    (scales : list InterpolationScale) (value_scale : InterpolationScale)
    (engine : RegularGridInterpolator + interp1d)
    (query : list value) (method1 method2 : option string) (clip : option bool)
    (qkw1 qkw2 : kwargs) :
  ScaledRegularGridInterpolator_init points values points_scale values_scale
    extrapolate1 (Some ax) kw1
  = ScaledRegularGridInterpolator_init points values points_scale values_scale
      extrapolate2 (Some ax) kw2
  /\ ScaledRegularGridInterpolator_call
       (mk_interpolator scales value_scale (Some ax) engine) query method1 clip qkw1
     = ScaledRegularGridInterpolator_call
         (mk_interpolator scales value_scale (Some ax) engine) query method2 clip qkw2.
Proof.
  split.
  - unfold ScaledRegularGridInterpolator_init.
    destruct (interpolation_scales _) as [ss |]; simpl bind; [| reflexivity].
    destruct (interpolation_scale _) as [sc |]; simpl bind; [| reflexivity].
    destruct (scale_each ss points) as [ss' [ps |]]; simpl bind; [| reflexivity].
    destruct (InterpolationScale_call sc values) as [sc' [vs |]]; reflexivity.
  - rewrite !call_unfold. reflexivity.
Qed.

Lemma reachable_scale (start self : ScaledRegularGridInterpolator) :
  reachable start self -> scale self = scale start.
Proof.
  induction 1 as [| self points method clip kw _ IH]; [reflexivity |].
  rewrite call_unfold. cbv zeta.
  destruct (bind _ _) as [[values ws] | e]; exact IH.
Qed.

Lemma interpolate_scaled_inverse (self : ScaledRegularGridInterpolator)
    (points : list ndarray) (method : string) (kw : kwargs)
    (out : value) (ws : list warning) :
  interpolate_scaled self points method kw = Ok (out, ws) ->
  exists values, InterpolationScale_inverse (scale self) values = Ok (out, ws).
Proof.
  unfold interpolate_scaled. intros H.
  destruct (axis self).
  - destruct points as [| p0 points]; [discriminate |].
    destruct (_interpolate_1d _ p0) as [values |]; simpl in H; [| discriminate].
    exists values. exact H.
  - destruct (np.broadcast_arrays points) as [bs |]; simpl in H; [| discriminate].
    destruct (np.stack_flat_T bs) as [xi |]; simpl in H; [| discriminate].
    destruct (_interpolate_nd _ xi method kw) as [values |]; simpl in H; [| discriminate].
    destruct (np.reshape values _) as [values' |]; simpl in H; [| discriminate].
    exists values'. exact H.
Qed.

Lemma sqrt_inverse_nonnegative (unit_memo : option unit) (values : ndarray) :
  exists out : value,
    InterpolationScale_inverse (mk_scale SqrtScale unit_memo) values
    = Ok (out, [])
    /\ nonnegative out.
Proof.
  unfold nonnegative, InterpolationScale_inverse. simpl.
  assert (H : Forall (fun x => 0 <= x) (map (fun x => x ^ 2) (flat values))).
  { apply Forall_forall. intros x Hx. apply in_map_iff in Hx.
    destruct Hx as [y [<- _]]. apply pow2_ge_0. }
  destruct unit_memo; eexists; (split; [reflexivity | exact H]).
Qed.

(** C10.  The inverse of the sqrt scale returns no negative element, whatever
    its input.  Hence an interpolator constructed with [values_scale="sqrt"]
    returns no negative element on any query, at any point of its life, also
    with [clip=False]. *)
Theorem sqrt_scale_never_negative (unit_memo : option unit) (y : ndarray)
    (points : list value) (values : value) (points_scale : option (list string))
    (extrapolate : option bool) (ax : option Z) (kw : kwargs)
    (start self self' : ScaledRegularGridInterpolator)
    (query : list value) (method : option string) (clip : option bool)
    (qkw : kwargs) (ws : list warning) (v : value) :
  (exists out : value,
      InterpolationScale_inverse (mk_scale SqrtScale unit_memo) y = Ok (out, [])
      /\ nonnegative out)
  /\ (ScaledRegularGridInterpolator_init points values points_scale (Some "sqrt"%string)
        extrapolate ax kw = Ok start ->
      reachable start self ->
      ScaledRegularGridInterpolator_call self query method clip qkw = (self', ws, Ok v) ->
      nonnegative v).
Proof.
  split; [apply sqrt_inverse_nonnegative |].
  intros Hinit Hreach Hcall.
  assert (Hcls : cls (scale self) = SqrtScale).
  { rewrite (reachable_scale _ _ Hreach).
    pose proof (init_scales points values points_scale (Some "sqrt"%string)
                  extrapolate ax kw) as Hs.
    cbv zeta in Hs.
    destruct (find invalid_name _) as [bad |]; [congruence |].
    destruct (Hs start Hinit) as [_ Hc]. simpl in Hc. unfold spec_scale_class in Hc.
    simpl in Hc. congruence. }
  rewrite call_unfold in Hcall. cbv zeta in Hcall.
  destruct (snd (scale_each (scale_points self) query)) as [points' |];
    simpl bind in Hcall; [| discriminate].
  destruct (interpolate_scaled self points' (default "linear"%string method) qkw)
    as [[out ws'] |] eqn:Hout; [| discriminate].
  injection Hcall as _ _ <-.
  destruct (interpolate_scaled_inverse _ _ _ _ _ _ Hout) as [vals Hinv].
  assert (Hnn : nonnegative out).
  { destruct (scale self) as [c um]. simpl in Hcls. subst c.
    destruct (sqrt_inverse_nonnegative um vals) as [out' [Hsq Hnn]].
    rewrite Hinv in Hsq. injection Hsq as -> _. exact Hnn. }
  destruct (default true clip); [apply clip_at_zero_nonnegative | exact Hnn].
Qed.

End QueryProperties.

(** ** The likelihood-profile helper *)

Lemma gradient_from_length (rest : list R) (prev cur : R) :
  List.length (np.gradient_from prev cur rest) = S (List.length rest).
Proof.
  revert prev cur. induction rest as [| next rest IH]; intros prev cur; simpl;
    [reflexivity | now rewrite IH].
Qed.

(** Inside the array, the central difference. *)
Lemma gradient_from_inner (rest : list R) (prev cur : R) (j : nat) :
  (j < List.length rest)%nat ->
  nth j (np.gradient_from prev cur rest) 0
  = (nth (S (S j)) (prev :: cur :: rest) 0 - nth j (prev :: cur :: rest) 0) / 2.
Proof.
  revert prev cur j. induction rest as [| next rest IH]; intros prev cur j Hj;
    simpl in Hj; [lia |].
  destruct j as [| j]; [reflexivity |].
  change (np.gradient_from prev cur (next :: rest))
    with ((next - prev) / 2 :: np.gradient_from cur next rest).
  change (nth (S j) ((next - prev) / 2 :: np.gradient_from cur next rest) 0)
    with (nth j (np.gradient_from cur next rest) 0).
  rewrite IH by lia. reflexivity.
Qed.

(** At the end of the array, the difference with the element before. *)
Lemma gradient_from_last (rest : list R) (prev cur : R) :
  nth (List.length rest) (np.gradient_from prev cur rest) 0
  = nth (S (List.length rest)) (prev :: cur :: rest) 0
    - nth (List.length rest) (prev :: cur :: rest) 0.
Proof.
  revert prev cur. induction rest as [| next rest IH]; intros prev cur; [reflexivity |].
  change (np.gradient_from prev cur (next :: rest))
    with ((next - prev) / 2 :: np.gradient_from cur next rest).
  change (List.length (next :: rest)) with (S (List.length rest)).
  change (nth (S (List.length rest)) ((next - prev) / 2 :: np.gradient_from cur next rest) 0)
    with (nth (List.length rest) (np.gradient_from cur next rest) 0).
  rewrite IH. reflexivity.
Qed.

Section HelperProperties.

Context {U : Units} {E : Engine}.

(** C4 (as amended).  For a [dloglike_scan] of at least two elements,
    [np.gradient] returns an array of the same length: the forward difference
    at the first element, the backward difference at the last, and half the
    difference of the two neighbours in between.  The helper then calls the
    constructor with [points = (value_scan,)], [points_scale] omitted, which is
    ["lin"] for the one axis, [values = sign(gradient) * dloglike_scan],
    [values_scale = interp_scale], which is ["sqrt"] when omitted, and nothing
    else. *)
Theorem likelihood_profile_construction (value_scan : value)
    (dloglike_scan : list R) (interp_scale : option string) :
  (2 <= List.length dloglike_scan)%nat ->
  exists gradient : list R,
    np.gradient dloglike_scan = Ok gradient
    /\ List.length gradient = List.length dloglike_scan
    /\ nth 0 gradient 0 = nth 1 dloglike_scan 0 - nth 0 dloglike_scan 0
    /\ (forall i, (S (S i) < List.length dloglike_scan)%nat ->
          nth (S i) gradient 0
          = (nth (S (S i)) dloglike_scan 0 - nth i dloglike_scan 0) / 2)
    /\ nth (List.length dloglike_scan - 1) gradient 0
       = nth (List.length dloglike_scan - 1) dloglike_scan 0
         - nth (List.length dloglike_scan - 2) dloglike_scan 0
    /\ interpolate_likelihood_profile value_scan dloglike_scan interp_scale
       = ScaledRegularGridInterpolator_init [value_scan]
           (Arr (np.multiply (np.array1 (map np.sign1 gradient))
                             (np.array1 dloglike_scan)))
           None (Some (default "sqrt"%string interp_scale)) None None []
    /\ ScaledRegularGridInterpolator_init [value_scan]
         (Arr (np.multiply (np.array1 (map np.sign1 gradient))
                             (np.array1 dloglike_scan)))
         None (Some (default "sqrt"%string interp_scale)) None None []
       = ScaledRegularGridInterpolator_init [value_scan]
           (Arr (np.multiply (np.array1 (map np.sign1 gradient))
                             (np.array1 dloglike_scan)))
           (Some ["lin"%string]) (Some (default "sqrt"%string interp_scale))
           (Some true) None [].
Proof.
  intros Hlen.
  destruct dloglike_scan as [| f0 [| f1 rest]]; simpl in Hlen; try lia.
  exists (f1 - f0 :: np.gradient_from f0 f1 rest).
  split; [reflexivity |].
  split; [simpl; now rewrite gradient_from_length |].
  split; [reflexivity |].
  split.
  { intros i Hi. simpl in Hi.
    change (nth (S i) (f1 - f0 :: np.gradient_from f0 f1 rest) 0)
      with (nth i (np.gradient_from f0 f1 rest) 0).
    apply gradient_from_inner. lia. }
  split.
  { change (List.length (f0 :: f1 :: rest) - 1)%nat with (S (List.length rest)).
    change (List.length (f0 :: f1 :: rest) - 2)%nat with (List.length rest - 0)%nat.
    rewrite Nat.sub_0_r.
    change (nth (S (List.length rest)) (f1 - f0 :: np.gradient_from f0 f1 rest) 0)
      with (nth (List.length rest) (np.gradient_from f0 f1 rest) 0).
    apply gradient_from_last. }
  split; reflexivity.
Qed.

(** What the engine of an [axis=None] interpolator was built with. *)
Lemma init_engine_options (points : list value) (values : value)
    (points_scale : option (list string)) (values_scale : option string)
    (extrapolate : option bool) (kw : kwargs) (it : ScaledRegularGridInterpolator) :
  ScaledRegularGridInterpolator_init points values points_scale values_scale
    extrapolate None kw = Ok it ->
  exists (points_scaled : list ndarray) (values_scaled : ndarray)
         (rgi : RegularGridInterpolator),
    _interpolate it = inl rgi
    /\ RegularGridInterpolator_init points_scaled values_scaled
         (if default true extrapolate
          then setdefault "fill_value" PyNone
                 (setdefault "bounds_error" (PyBool false) kw)
          else kw) = Ok rgi.
Proof.
  unfold ScaledRegularGridInterpolator_init. intros H.
  destruct (interpolation_scales _) as [ss |]; simpl bind in H; [| discriminate].
  destruct (interpolation_scale _) as [sc |]; simpl bind in H; [| discriminate].
  destruct (scale_each ss points) as [ss' [ps |]]; simpl bind in H; [| discriminate].
  destruct (InterpolationScale_call sc values) as [sc' [vs |]]; simpl bind in H; [| discriminate].
  destruct (RegularGridInterpolator_init ps vs _) as [rgi |] eqn:Hrgi;
    simpl bind in H; [| discriminate].
  injection H as <-. exists ps, vs, rgi. split; [reflexivity | exact Hrgi].
Qed.

End HelperProperties.

Lemma kw_get_app_absent (k : string) (kw more : kwargs) :
  kw_get k kw = None -> kw_get k (kw ++ more) = kw_get k more.
Proof.
  induction kw as [| [k' v'] kw IH]; simpl; [reflexivity |].
  destruct (String.eqb k k'); [discriminate | exact IH].
Qed.

Lemma kw_get_app_present (k : string) (kw more : kwargs) (v : pyval) :
  kw_get k kw = Some v -> kw_get k (kw ++ more) = Some v.
Proof.
  induction kw as [| [k' v'] kw IH]; simpl; [discriminate |].
  destruct (String.eqb k k'); [trivial | exact IH].
Qed.

(** [setdefault] keeps a value that is there and supplies one that is not. *)
Lemma kw_get_setdefault (k k' : string) (v : pyval) (kw : kwargs) :
  kw_get k (setdefault k' v kw)
  = match kw_get k kw with
    | Some given => Some given
    | None => if String.eqb k k' then Some v else None
    end.
Proof.
  unfold setdefault.
  destruct (kw_get k' kw) as [v' |] eqn:Hk'.
  - destruct (kw_get k kw) as [given |] eqn:Hk; [reflexivity |].
    destruct (String.eqb k k') eqn:Heq; [| reflexivity].
    apply String.eqb_eq in Heq. subst k'. congruence.
  - destruct (kw_get k kw) as [given |] eqn:Hk.
    + now apply kw_get_app_present.
    + rewrite kw_get_app_absent by exact Hk. simpl.
      destruct (String.eqb k k'); reflexivity.
Qed.

(** * The reference engine at work *)

Lemma tiny_bounds : 0 < tiny /\ 2 * tiny <= 1.
Proof. split; [exact tiny_pos | exact tiny_small]. Qed.

Ltac decide_R :=
  repeat match goal with
    | |- context [Rltb ?a ?b] =>
        first [rewrite (Rltb_true a b) by lra | rewrite (Rltb_false a b) by lra]
    | |- context [Rleb ?a ?b] =>
        first [rewrite (Rleb_true a b) by lra | rewrite (Rleb_false a b) by lra]
    end.

(** Unfolds a construction or a query down to the comparisons of reals and
    decides those. *)
Ltac run_reference :=
  repeat progress (simpl;
  unfold ScaledRegularGridInterpolator_init, interpolate_scaled,
    Reference.rgi_init, Reference.rgi_call, Reference.rgi_point,
    Reference.i1d_init, Reference.i1d_call, Reference.i1d_point,
    Reference.row_out_of_bounds, Reference.out_of_range,
    Reference.find_index, Reference.norm_distance, Reference.searchsorted;
  simpl; decide_R).

Section Examples.

#[local] Existing Instance Reference.units.
#[local] Existing Instance Reference.engine.

Lemma log_inverse_single (y : R) :
  2 * tiny < exp y ->
  InterpolationScale_inverse (new_scale LogScale) {| shape := [1%nat]; flat := [y] |}
  = Ok (Arr {| shape := [1%nat]; flat := [exp y] |}, []).
Proof.
  intros Hy. unfold InterpolationScale_inverse. simpl cls.
  rewrite log_inverse_elements by (simpl; discriminate).
  unfold np.elementwise, log_floor. simpl. rewrite Rleb_false by exact Hy. reflexivity.
Qed.

Lemma log_inverse_single_scalar (y : R) :
  2 * tiny < exp y ->
  InterpolationScale_inverse (new_scale LogScale) {| shape := []; flat := [y] |}
  = Ok (Arr {| shape := []; flat := [exp y] |}, []).
Proof.
  intros Hy. unfold InterpolationScale_inverse. simpl cls.
  change {| shape := []; flat := [y] |} with (np.scalar y).
  rewrite log_inverse_scalar, Rleb_false by exact Hy. reflexivity.
Qed.

Lemma exp_between (lo hi y : R) :
  0 < lo -> 0 < hi -> ln lo < y < ln hi -> lo < exp y < hi.
Proof.
  intros Hlo Hhi [H1 H2]. split.
  - rewrite <- (exp_ln lo) at 1 by exact Hlo. now apply exp_increasing.
  - rewrite <- (exp_ln hi) at 1 by exact Hhi. now apply exp_increasing.
Qed.

Lemma ln_100_1000 : ln 100 < ln 1000.
Proof. apply ln_increasing; lra. Qed.

(** C7.  The interpolator over the points [1, 2, 3, 4] with the values
    [10, 100, 1000, 10000] on the log scale returns 100 at 2, which is within
    1% of 100, and a value strictly between 100 and 1000 at 2.5, whether the
    query is a one-element array or a number. *)
Theorem decades_on_log_scale :
  exists it : ScaledRegularGridInterpolator,
    ScaledRegularGridInterpolator_init
      [Arr (np.array1 [1; 2; 3; 4])] (Arr (np.array1 [10; 100; 1000; 10000]))
      None (Some "log"%string) None None [] = Ok it
    /\ (exists v : R,
          ScaledRegularGridInterpolator_call it [Arr (np.array1 [2])] None None []
          = (it, [], Ok (Arr (np.array1 [v])))
          /\ Rabs (v - 100) <= 100 * (1 / 100))
    /\ (exists v : R,
          ScaledRegularGridInterpolator_call it [Arr (np.array1 [5 / 2])] None None []
          = (it, [], Ok (Arr (np.array1 [v])))
          /\ 100 < v < 1000)
    /\ (exists v : R,
          ScaledRegularGridInterpolator_call it [Arr (np.scalar 2)] None None []
          = (it, [], Ok (Arr (np.scalar v)))
          /\ Rabs (v - 100) <= 100 * (1 / 100))
    /\ (exists v : R,
          ScaledRegularGridInterpolator_call it [Arr (np.scalar (5 / 2))] None None []
          = (it, [], Ok (Arr (np.scalar v)))
          /\ 100 < v < 1000).
Proof.
  destruct tiny_bounds as [Hpos Hsmall].
  eexists. split; [run_reference; reflexivity |].
  rewrite !Rmax_left by lra.
  pose proof ln_100_1000 as Hln.
  assert (Hy : 100 < exp ((1 - (5 / 2 - 2) / (3 - 2)) * ln 100
                          + (5 / 2 - 2) / (3 - 2) * ln 1000) < 1000)
    by (apply exp_between; lra).
  split; [| split; [| split]].
  - eexists. split.
    + rewrite call_unfold. run_reference.
      replace ((1 - (2 - 1) / (2 - 1)) * ln 10 + (2 - 1) / (2 - 1) * ln 100)
        with (ln 100) by lra.
      rewrite log_inverse_single by (rewrite exp_ln; lra).
      reflexivity.
    + rewrite exp_ln, Rmax_left by lra.
      replace (100 - 100) with 0 by lra. rewrite Rabs_R0. lra.
  - eexists. split.
    + rewrite call_unfold. run_reference.
      rewrite log_inverse_single by lra.
      reflexivity.
    + rewrite Rmax_left by lra. exact Hy.
  - eexists. split.
    + rewrite call_unfold. run_reference.
      replace ((1 - (2 - 1) / (2 - 1)) * ln 10 + (2 - 1) / (2 - 1) * ln 100)
        with (ln 100) by lra.
      rewrite log_inverse_single_scalar by (rewrite exp_ln; lra).
      reflexivity.
    + rewrite exp_ln, Rmax_left by lra.
      replace (100 - 100) with 0 by lra. rewrite Rabs_R0. lra.
  - eexists. split.
    + rewrite call_unfold. run_reference.
      rewrite log_inverse_single_scalar by lra.
      reflexivity.
    + rewrite Rmax_left by lra. exact Hy.
Qed.

(** C6 (as amended).  For an interpolator constructed without [axis]: the
    engine is built with the caller's keyword options, to which, when
    [extrapolate] is true or omitted, [bounds_error=False] and
    [fill_value=None] are added unless the caller gave them, and with the
    caller's options alone when [extrapolate] is false.  On the reference
    engine a query beyond the grid is then extrapolated linearly in the first
    case, rejected when the caller passed [bounds_error=True], and rejected
    with the engine's out-of-bounds error when [extrapolate] is false. *)
Theorem extrapolation_by_default :
  (forall (U : Units) (E : Engine) (points : list (@value U)) (values : @value U)
          (points_scale : option (list string)) (values_scale : option string)
          (extrapolate : option bool) (kw : kwargs)
          (it : @ScaledRegularGridInterpolator U E),
      @ScaledRegularGridInterpolator_init U E points values points_scale values_scale
        extrapolate None kw = Ok it ->
      exists (points_scaled : list ndarray) (values_scaled : ndarray)
             (rgi : @RegularGridInterpolator E),
        _interpolate it = inl rgi
        /\ @RegularGridInterpolator_init E points_scaled values_scaled
             (if default true extrapolate
              then setdefault "fill_value" PyNone
                     (setdefault "bounds_error" (PyBool false) kw)
              else kw) = Ok rgi)
  /\ (forall kw : kwargs,
        let given := setdefault "fill_value" PyNone
                       (setdefault "bounds_error" (PyBool false) kw) in
        kw_get "bounds_error" given
        = Some (default (PyBool false) (kw_get "bounds_error" kw))
        /\ kw_get "fill_value" given = Some (default PyNone (kw_get "fill_value" kw)))
  /\ (let make := ScaledRegularGridInterpolator_init
                     [Arr (np.array1 [1; 2; 3; 4])] (Arr (np.array1 [10; 20; 30; 40]))
                     None None in
      let beyond := [Arr (np.array1 [5])] in
      exists extrapolating strict plain : ScaledRegularGridInterpolator,
        make None None [] = Ok extrapolating
        /\ snd (ScaledRegularGridInterpolator_call extrapolating beyond None None [])
           = Ok (Arr (np.array1 [50]))
        /\ make None None [("bounds_error"%string, PyBool true)] = Ok strict
        /\ (exists msg : string,
              snd (ScaledRegularGridInterpolator_call strict beyond None None [])
              = Raise (ValueError msg))
        /\ make (Some false) None [] = Ok plain
        /\ (exists msg : string,
              snd (ScaledRegularGridInterpolator_call plain beyond None None [])
              = Raise (ValueError msg))).
Proof.
  split; [| split].
  - intros U E points values points_scale values_scale extrapolate kw it.
    apply init_engine_options.
  - intros kw given. subst given. rewrite !kw_get_setdefault. simpl.
    split; destruct (kw_get _ kw); reflexivity.
  - cbv zeta. do 3 eexists.
    split; [run_reference; reflexivity |].
    split.
    { rewrite call_unfold. run_reference.
      unfold np.clip_inf, np.elementwise, np.array1. simpl.
      repeat f_equal. rewrite Rmax_left by lra. lra. }
    split; [run_reference; reflexivity |].
    split; [eexists; rewrite call_unfold; run_reference; reflexivity |].
    split; [run_reference; reflexivity |].
    eexists. rewrite call_unfold. run_reference. reflexivity.
Qed.

(** ** Instances and counterexamples *)

(** The sqrt scale returns 4 for -4: the sign does not survive the round
    trip. *)
Lemma sqrt_round_trip_loses_sign :
  forward_backward (new_scale SqrtScale) (Arr (np.array1 [-4]))
  = Ok (Arr (np.array1 [4]), [])
  /\ Arr (np.array1 [4]) <> Arr (np.array1 [-4]).
Proof.
  split.
  - unfold forward_backward, InterpolationScale_call, InterpolationScale_inverse. simpl.
    unfold np.power, np.elementwise, np.array1. simpl.
    repeat f_equal.
    pose proof (signed_sqrt_squared (-4)) as H.
    rewrite Rabs_left in H by lra. simpl in H. lra.
  - intros H. injection H as H. lra.
Qed.

(** A result of one and a half [tiny], farther from zero than [tiny], is
    replaced by zero all the same. *)
Lemma log_floor_reaches_past_tiny :
  tiny < exp (ln (3 / 2 * tiny))
  /\ InterpolationScale_inverse (new_scale LogScale) (np.array1 [ln (3 / 2 * tiny)])
     = Ok (Arr (np.array1 [0]),
           [Warning "Interpolated values reached float32 precision limit"]).
Proof.
  destruct tiny_bounds as [Hpos _].
  assert (Hexp : exp (ln (3 / 2 * tiny)) = 3 / 2 * tiny) by (apply exp_ln; lra).
  split; [rewrite Hexp; lra |].
  unfold InterpolationScale_inverse. simpl cls.
  rewrite log_inverse_elements by (simpl; discriminate).
  unfold np.elementwise, np.array1, log_floor. simpl.
  rewrite Hexp, Rleb_true by lra. reflexivity.
Qed.

(** A scan of a single element has no gradient: the helper raises. *)
Lemma likelihood_profile_single_point :
  exists msg : string,
    interpolate_likelihood_profile (Arr (np.array1 [1])) [4] None
    = Raise (ValueError msg).
Proof. eexists. reflexivity. Qed.

(** With [axis] set, a query beyond the grid is rejected although
    [extrapolate] is true and no option was passed. *)
Lemma axis_mode_does_not_extrapolate :
  exists it : ScaledRegularGridInterpolator,
    ScaledRegularGridInterpolator_init
      [Arr (np.array1 [1; 2; 3; 4])] (Arr (np.array1 [10; 20; 30; 40]))
      None None (Some true) (Some 0%Z) [] = Ok it
    /\ exists msg : string,
         snd (ScaledRegularGridInterpolator_call it [Arr (np.array1 [5])] None None [])
         = Raise (ValueError msg).
Proof.
  eexists. split; [run_reference; reflexivity |].
  eexists. rewrite call_unfold. run_reference. reflexivity.
Qed.

Lemma scale_selected_by_name_witness :
  ScaledRegularGridInterpolator_init [Arr (np.array1 [1; 2])] (Arr (np.array1 [1; 4]))
    (Some ["cubic"%string]) (Some "log"%string) None None []
  = Raise (ValueError "Not a valid value scaling mode: 'cubic'.")
  /\ exists it : ScaledRegularGridInterpolator,
       ScaledRegularGridInterpolator_init [Arr (np.array1 [1; 2])] (Arr (np.array1 [1; 4]))
         None (Some "sqrt"%string) None None [] = Ok it
       /\ map (fun s => Some (cls s)) (scale_points it) = [Some LinearScale]
       /\ Some (cls (scale it)) = Some SqrtScale.
Proof.
  split.
  - apply (proj1 (proj2 (scale_selected_by_name
                           [Arr (np.array1 [1; 2])] (Arr (np.array1 [1; 4]))
                           (Some ["cubic"%string]) (Some "log"%string) None None []))
             "cubic"%string).
    reflexivity.
  - eexists. split; [run_reference; reflexivity |].
    apply (proj2 (proj2 (scale_selected_by_name
                           [Arr (np.array1 [1; 2])] (Arr (np.array1 [1; 4]))
                           None (Some "sqrt"%string) None None []))).
    run_reference. reflexivity.
Defined.

Lemma likelihood_profile_construction_witness :
  exists gradient : list R,
    np.gradient [4; 1; 0; 1; 4] = Ok gradient
    /\ List.length gradient = 5%nat
    /\ nth 2 gradient 0 = (1 - 1) / 2
    /\ interpolate_likelihood_profile (Arr (np.array1 [1; 2; 3; 4; 5])) [4; 1; 0; 1; 4] None
       = ScaledRegularGridInterpolator_init [Arr (np.array1 [1; 2; 3; 4; 5])]
           (Arr (np.multiply (np.array1 (map np.sign1 gradient))
                             (np.array1 [4; 1; 0; 1; 4])))
           None (Some "sqrt"%string) None None [].
Proof.
  destruct (likelihood_profile_construction
              (Arr (np.array1 [1; 2; 3; 4; 5])) [4; 1; 0; 1; 4] None)
    as (gradient & Hg & Hlen & _ & Hinner & _ & Hcall & _).
  - simpl. lia.
  - exists gradient. repeat split; try assumption.
    apply (Hinner 1%nat). simpl. lia.
Defined.

Lemma clip_floors_at_zero_witness :
  exists (it : ScaledRegularGridInterpolator) (v : value),
    ScaledRegularGridInterpolator_init [Arr (np.array1 [1; 2])] (Arr (np.array1 [-1; -3]))
      None None None None [] = Ok it
    /\ snd (ScaledRegularGridInterpolator_call it [Arr (np.array1 [1])] None (Some false) [])
       = Ok (Arr (np.array1 [-1]))
    /\ snd (ScaledRegularGridInterpolator_call it [Arr (np.array1 [1])] None (Some true) [])
       = Ok v
    /\ nonnegative v.
Proof.
  do 2 eexists.
  split; [run_reference; reflexivity |].
  split.
  { rewrite call_unfold. run_reference.
    unfold np.array1. simpl. repeat f_equal. lra. }
  assert (Hclipped : forall it points v,
             snd (ScaledRegularGridInterpolator_call it points None (Some true) []) = Ok v ->
             snd (ScaledRegularGridInterpolator_call it points None (Some true) []) = Ok v
             /\ nonnegative v).
  { intros it points v Hv. split; [exact Hv |].
    exact (proj1 (proj2 (proj2 (proj2 (clip_floors_at_zero it points None [])))) v Hv). }
  apply Hclipped. rewrite call_unfold. run_reference. reflexivity.
Defined.

Lemma sqrt_scale_never_negative_witness :
  exists (it : ScaledRegularGridInterpolator) (v : value),
    ScaledRegularGridInterpolator_init [Arr (np.array1 [1; 2])] (Arr (np.array1 [1; 4]))
      None (Some "sqrt"%string) None None [] = Ok it
    /\ ScaledRegularGridInterpolator_call it [Arr (np.array1 [3 / 2])] None (Some false) []
       = (it, [], Ok v)
    /\ nonnegative v.
Proof.
  do 2 eexists.
  split; [run_reference; reflexivity |].
  assert (Hquery : forall start v,
             ScaledRegularGridInterpolator_init [Arr (np.array1 [1; 2])]
               (Arr (np.array1 [1; 4])) None (Some "sqrt"%string) None None [] = Ok start ->
             ScaledRegularGridInterpolator_call start [Arr (np.array1 [3 / 2])]
               None (Some false) [] = (start, [], Ok v) ->
             ScaledRegularGridInterpolator_call start [Arr (np.array1 [3 / 2])]
               None (Some false) [] = (start, [], Ok v)
             /\ nonnegative v).
  { intros start v Hinit Hcall. split; [exact Hcall |].
    exact (proj2 (sqrt_scale_never_negative None (np.array1 []) _ _ _ _ _ _
                    start start start _ _ _ _ [] v)
             Hinit (reach_start start) Hcall). }
  apply Hquery.
  - run_reference. reflexivity.
  - rewrite call_unfold. run_reference. reflexivity.
Defined.

Lemma extrapolation_by_default_witness :
  exists (it : ScaledRegularGridInterpolator) (points_scaled : list ndarray)
         (values_scaled : ndarray) (rgi : Reference.rgi),
    ScaledRegularGridInterpolator_init
      [Arr (np.array1 [1; 2; 3; 4])] (Arr (np.array1 [10; 20; 30; 40]))
      None None None None [] = Ok it
    /\ _interpolate it = inl rgi
    /\ Reference.rgi_init points_scaled values_scaled
         [("bounds_error"%string, PyBool false); ("fill_value"%string, PyNone)] = Ok rgi.
Proof.
  eexists.
  assert (Hbuilt : forall it,
             ScaledRegularGridInterpolator_init
               [Arr (np.array1 [1; 2; 3; 4])] (Arr (np.array1 [10; 20; 30; 40]))
               None None None None [] = Ok it ->
             exists points_scaled values_scaled rgi,
               ScaledRegularGridInterpolator_init
                 [Arr (np.array1 [1; 2; 3; 4])] (Arr (np.array1 [10; 20; 30; 40]))
                 None None None None [] = Ok it
               /\ _interpolate it = inl rgi
               /\ Reference.rgi_init points_scaled values_scaled
                    [("bounds_error"%string, PyBool false); ("fill_value"%string, PyNone)]
                  = Ok rgi).
  { intros it Hit.
    destruct (proj1 extrapolation_by_default Reference.units Reference.engine
                _ _ _ _ _ _ it Hit) as (ps & vs & rgi & Hi & Hr).
    exists ps, vs, rgi. repeat split; assumption. }
  apply Hbuilt. run_reference. reflexivity.
Defined.

End Examples.

(** * Further properties *)

(** ** The transforms of the scales *)

Lemma signed_sqrt_cases (x : R) :
  signed_sqrt x
  = if Rlt_dec x 0 then - sqrt (- x) else if Rlt_dec 0 x then sqrt x else 0.
Proof.
  unfold signed_sqrt, np.sign1.
  destruct (Rlt_dec x 0); [| destruct (Rlt_dec 0 x)].
  - replace (-1 * x) with (- x) by lra. lra.
  - replace (1 * x) with x by lra. lra.
  - lra.
Qed.

Lemma sqrt_scale_elementwise (a : ndarray) :
  _scale SqrtScale a = np.elementwise signed_sqrt a.
Proof.
  unfold _scale, np.multiply, np.sign, np.sqrt, np.elementwise. simpl.
  rewrite zip_mul_map_l, (map_map _ sqrt), zip_mul_map. reflexivity.
Qed.

Lemma log_scale_elementwise (a : ndarray) :
  _scale LogScale a = np.elementwise clipped_log a.
Proof.
  unfold _scale, np.log, np.clip_inf, np.elementwise. simpl. now rewrite map_map.
Qed.

Section TransformProperties.

Context {U : Units}.

(** X1.  The forward transform of the sqrt scale acts on every element by the
    signed square root, which is an odd and strictly increasing function: the
    order of the values, and with it their sign, is kept. *)
Theorem sqrt_scale_odd_increasing (a : ndarray) (x y : R) :
  _scale SqrtScale a = np.elementwise signed_sqrt a
  /\ signed_sqrt (- x) = - signed_sqrt x
  /\ (x < y -> signed_sqrt x < signed_sqrt y).
Proof.
  split; [| split].
  - apply sqrt_scale_elementwise.
  - rewrite !signed_sqrt_cases.
    destruct (Rlt_dec (- x) 0), (Rlt_dec x 0), (Rlt_dec 0 (- x)), (Rlt_dec 0 x);
      try lra; rewrite ?Ropp_involutive; lra.
  - intros Hxy. rewrite !signed_sqrt_cases.
    destruct (Rlt_dec x 0) as [Hx | Hx], (Rlt_dec y 0) as [Hy | Hy].
    + assert (sqrt (- y) < sqrt (- x)) by (apply sqrt_lt_1_alt; lra). lra.
    + assert (0 < sqrt (- x)) by (apply sqrt_lt_R0; lra).
      destruct (Rlt_dec 0 y); [| lra].
      assert (0 < sqrt y) by (apply sqrt_lt_R0; lra). lra.
    + lra.
    + destruct (Rlt_dec 0 y); [| lra].
      destruct (Rlt_dec 0 x).
      * apply sqrt_lt_1_alt. lra.
      * apply sqrt_lt_R0. lra.
Qed.

Lemma clipped_log_above (x : R) : tiny <= x -> clipped_log x = ln x.
Proof. intros H. unfold clipped_log. now rewrite Rmax_left. Qed.

Lemma clipped_log_below (x : R) : x <= tiny -> clipped_log x = ln tiny.
Proof. intros H. unfold clipped_log. now rewrite Rmax_right. Qed.

Lemma ln_monotone (x y : R) : 0 < x -> x <= y -> ln x <= ln y.
Proof.
  intros Hx [Hlt | ->]; [left; now apply ln_increasing | right; reflexivity].
Qed.

(** X2.  The forward transform of the log scale acts on every element by the
    logarithm of the element raised to [tiny]: it is nowhere below [ln tiny],
    it is [ln tiny] for every element at or below [tiny] (zero and negative
    elements included), it never reverses the order of two elements, and it
    is strictly increasing from [tiny] on. *)
Theorem log_scale_floor (a : ndarray) (x y : R) :
  _scale LogScale a = np.elementwise clipped_log a
  /\ ln tiny <= clipped_log x
  /\ (x <= tiny -> clipped_log x = ln tiny)
  /\ (x <= y -> clipped_log x <= clipped_log y)
  /\ (tiny <= x -> x < y -> clipped_log x < clipped_log y).
Proof.
  pose proof tiny_pos as Ht.
  assert (Hmax : forall z, tiny <= Rmax z tiny) by (intros z; apply Rmax_r).
  split; [| split; [| split; [| split]]].
  - apply log_scale_elementwise.
  - unfold clipped_log. apply ln_monotone; [exact Ht | apply Hmax].
  - apply clipped_log_below.
  - intros Hxy. unfold clipped_log. apply ln_monotone.
    + apply Rlt_le_trans with tiny; [exact Ht | apply Hmax].
    + apply Rle_max_compat_r. exact Hxy.
  - intros Hx Hxy. rewrite !clipped_log_above by lra. apply ln_increasing; lra.
Qed.

Lemma signed_sqrt_of_square (y : R) : signed_sqrt (y ^ 2) = Rabs y.
Proof.
  rewrite signed_sqrt_cases.
  assert (Hsq : 0 <= y ^ 2) by apply pow2_ge_0.
  destruct (Rlt_dec (y ^ 2) 0); [lra |].
  destruct (Rlt_dec 0 (y ^ 2)) as [Hpos | Hzero].
  - replace (y ^ 2) with (Rsqr y) by (unfold Rsqr; simpl; lra). apply sqrt_Rsqr_abs.
  - assert (Hy : y * y = 0) by (simpl in Hsq, Hzero; lra).
    apply Rmult_integral in Hy. assert (y = 0) by tauto. subst y.
    now rewrite Rabs_R0.
Qed.

Lemma clipped_log_of_floor (t : R) :
  clipped_log (log_floor (exp t)) = if Rleb (exp t) (2 * tiny) then ln tiny else t.
Proof.
  pose proof tiny_pos as Ht. unfold log_floor.
  unfold Rleb. destruct (Rle_dec (exp t) (2 * tiny)) as [Hle | Hgt].
  - apply clipped_log_below. lra.
  - rewrite clipped_log_above by lra. apply ln_exp.
Qed.

(** X3.  The inverse transform followed by the forward transform, that is a
    transformed value taken back and transformed again: the linear scale
    returns it unchanged, the sqrt scale returns its absolute value, and the
    log scale, on an array of at least one dimension, returns it unchanged
    where its exponential exceeds [2 * tiny] and [ln tiny] elsewhere. *)
Theorem inverse_then_forward (y : ndarray) (d : nat) (sh : list nat) (ys : list R) :
  (inverted <- _inverse LinearScale y ;; Ok (_scale LinearScale (fst inverted))) = Ok y
  /\ (inverted <- _inverse SqrtScale y ;; Ok (_scale SqrtScale (fst inverted)))
     = Ok (np.elementwise Rabs y)
  /\ (inverted <- _inverse LogScale {| shape := d :: sh; flat := ys |} ;;
      Ok (_scale LogScale (fst inverted)))
     = Ok {| shape := d :: sh;
             flat := map (fun t => if Rleb (exp t) (2 * tiny) then ln tiny else t) ys |}.
Proof.
  split; [reflexivity | split].
  - cbn [_inverse bind fst]. rewrite sqrt_scale_elementwise.
    unfold np.power, np.elementwise. simpl. rewrite map_map. do 2 f_equal.
    apply map_ext. intros t. apply signed_sqrt_of_square.
  - rewrite log_inverse_elements by (simpl; discriminate). cbn [bind fst].
    rewrite log_scale_elementwise.
    unfold np.elementwise. simpl. rewrite map_map. do 2 f_equal.
    apply map_ext. intros t. apply clipped_log_of_floor.
Qed.

End TransformProperties.

(** ** The constructor *)

Section ConstructorProperties.

Context {U : Units} {E : Engine}.

Lemma call_on_fresh_scale (c : scale_class) (v : value) :
  InterpolationScale_call (new_scale c) v
  = (mk_scale c (unit_of v), Ok (_scale c (magnitude v))).
Proof. destruct v; reflexivity. Qed.

Lemma scale_each_fresh (cs : list scale_class) (points : list value) :
  scale_each (map new_scale cs) points
  = (remembering cs points, Ok (scaled_grid cs points)).
Proof.
  unfold remembering, scaled_grid.
  revert points. induction cs as [| c cs IH]; intros [| p points]; try reflexivity.
  cbn [map scale_each]. rewrite call_on_fresh_scale, IH. reflexivity.
Qed.

Lemma interpolation_scales_cases (names : list string) :
  (exists bad, In bad names /\ spec_scale_class bad = None
               /\ interpolation_scales names
                  = Raise (ValueError (invalid_scale_message bad)))
  \/ (exists cs, interpolation_scales names = Ok (map new_scale cs)
                 /\ map Some cs = map spec_scale_class names).
Proof.
  induction names as [| name names IH]; simpl.
  - right. exists []. split; reflexivity.
  - rewrite interpolation_scale_spec.
    destruct (spec_scale_class name) as [c |] eqn:Hc; simpl.
    + destruct IH as [[bad [Hin [Hbad Hr]]] | [cs [Hr Hcs]]]; rewrite Hr; simpl.
      * left. exists bad. auto.
      * right. exists (c :: cs). simpl. rewrite Hcs. split; reflexivity.
    + left. exists name. auto.
Qed.

(** The constructor once its names are known to be valid. *)
Lemma init_with_valid_names (points : list value) (values : value)
    (points_scale : option (list string)) (values_scale : option string)
    (extrapolate : option bool) (ax : option Z) (kw : kwargs)
    (cs : list scale_class) (c : scale_class) :
  interpolation_scales (default (repeat "lin"%string (List.length points)) points_scale)
  = Ok (map new_scale cs) ->
  spec_scale_class (default "lin"%string values_scale) = Some c ->
  ScaledRegularGridInterpolator_init points values points_scale values_scale
    extrapolate ax kw
  = match ax with
    | None =>
        interp <- RegularGridInterpolator_init (scaled_grid cs points)
                    (_scale c (magnitude values)) (engine_options extrapolate kw) ;;
        Ok (mk_interpolator (remembering cs points) (mk_scale c (unit_of values))
              None (inl interp))
    | Some k =>
        match scaled_grid cs points with
        | [] => Raise (IndexError "tuple index out of range")
        | p0 :: _ =>
            interp <- interp1d_init p0 (_scale c (magnitude values)) k ;;
            Ok (mk_interpolator (remembering cs points) (mk_scale c (unit_of values))
                  (Some k) (inr interp))
        end
    end.
Proof.
  intros Hnames Hc. unfold ScaledRegularGridInterpolator_init.
  replace (match points_scale with
           | Some names => names
           | None => repeat "lin"%string (List.length points)
           end)
    with (default (repeat "lin"%string (List.length points)) points_scale)
    by (destruct points_scale; reflexivity).
  rewrite Hnames. cbn [bind].
  rewrite interpolation_scale_spec, Hc. cbn [bind].
  rewrite scale_each_fresh. cbn [bind].
  rewrite call_on_fresh_scale. cbn [bind].
  destruct ax; reflexivity.
Qed.


(** X5.  The constructor raises in three ways only: [ValueError] for a name
    that is not a scale, from [points_scale] or [values_scale]; whatever the
    engine raises when it is built; and, with [axis] set, [IndexError] when no
    coordinate array is left to build on, because [points] or [points_scale]
    is empty.  Transforming the arrays never raises. *)
Theorem constructor_failures (points : list value) (values : value)
    (points_scale : option (list string)) (values_scale : option string)
    (extrapolate : option bool) (ax : option Z) (kw : kwargs) (e : exn) :
  let names := default (repeat "lin"%string (List.length points)) points_scale in
  ScaledRegularGridInterpolator_init points values points_scale values_scale
    extrapolate ax kw = Raise e ->
  (exists bad,
      In bad (names ++ [default "lin"%string values_scale])
      /\ spec_scale_class bad = None
      /\ e = ValueError (invalid_scale_message bad))
  \/ (ax = None
      /\ exists grid vals options, RegularGridInterpolator_init grid vals options = Raise e)
  \/ (exists k,
        ax = Some k
        /\ ((e = IndexError "tuple index out of range" /\ (points = [] \/ names = []))
            \/ exists x y, interp1d_init x y k = Raise e)).
Proof.
  intros names Hinit.
  assert (Hunfold : match points_scale with
                    | Some l => l
                    | None => repeat "lin"%string (List.length points)
                    end = names) by (destruct points_scale; reflexivity).
  destruct (interpolation_scales_cases names) as [[bad [Hin [Hbad Hr]]] | [cs [Hr Hcs]]].
  { left. exists bad. split; [apply in_or_app; left; exact Hin |]. split; [exact Hbad |].
    unfold ScaledRegularGridInterpolator_init in Hinit. rewrite Hunfold, Hr in Hinit.
    cbn [bind] in Hinit. congruence. }
  destruct (spec_scale_class (default "lin"%string values_scale)) as [c |] eqn:Hc.
  2:{ left. exists (default "lin"%string values_scale).
      split; [apply in_or_app; right; left; reflexivity |]. split; [exact Hc |].
      unfold ScaledRegularGridInterpolator_init in Hinit. rewrite Hunfold, Hr in Hinit.
      cbn [bind] in Hinit. rewrite interpolation_scale_spec, Hc in Hinit.
      cbn [bind] in Hinit. congruence. }
  right.
  rewrite (init_with_valid_names _ _ _ _ _ _ _ cs c Hr Hc) in Hinit.
  destruct ax as [k |].
  - right. exists k. split; [reflexivity |].
    destruct (scaled_grid cs points) as [| p0 rest] eqn:Hgrid.
    + left. split; [congruence |].
      unfold scaled_grid in Hgrid. apply map_eq_nil in Hgrid.
      destruct cs as [| c0 cs]; [| destruct points as [| p points]; [| discriminate]].
      * right. destruct names; [reflexivity | discriminate].
      * left. reflexivity.
    + right. exists p0, (_scale c (magnitude values)).
      destruct (interp1d_init p0 _ k); [discriminate | cbn [bind] in Hinit; congruence].
  - left. split; [reflexivity |].
    exists (scaled_grid cs points), (_scale c (magnitude values)),
      (engine_options extrapolate kw).
    destruct (RegularGridInterpolator_init _ _ _);
      [discriminate | cbn [bind] in Hinit; congruence].
Qed.

End ConstructorProperties.

(** ** Queries, once more *)

Section FurtherQueryProperties.

Context {U : Units} {E : Engine}.

Lemma call_remembers (s : InterpolationScale) (p : value) :
  remembers s (fst (InterpolationScale_call s p)).
Proof.
  unfold remembers, InterpolationScale_call.
  destruct (_unit s) as [u0 |] eqn:Hs; simpl.
  - split; [reflexivity | intros w Hw; congruence].
  - destruct p; simpl; (split; [reflexivity | intros w Hw; congruence]).
Qed.

Lemma remembers_refl (s : InterpolationScale) : remembers s s.
Proof. split; [reflexivity | trivial]. Qed.

Lemma scale_each_remembers (ss : list InterpolationScale) (points : list value) :
  Forall2 remembers ss (fst (scale_each ss points)).
Proof.
  assert (Hrefl : forall l, Forall2 remembers l l).
  { induction l; constructor; [apply remembers_refl | assumption]. }
  revert points. induction ss as [| s ss IH]; intros [| p points]; simpl;
    try apply Hrefl.
  pose proof (call_remembers s p) as Hs.
  destruct (InterpolationScale_call s p) as [s' [a | e]]; simpl in *.
  - specialize (IH points). destruct (scale_each ss points) as [ss' r]; simpl in *.
    constructor; assumption.
  - constructor; [assumption | apply Hrefl].
Qed.

Lemma Forall2_remembers_trans (l1 l2 l3 : list InterpolationScale) :
  Forall2 remembers l1 l2 -> Forall2 remembers l2 l3 -> Forall2 remembers l1 l3.
Proof.
  intros H12. revert l3. induction H12 as [| a b l1 l2 [Hc Hu] _ IH]; intros l3 H23.
  - inversion H23. constructor.
  - inversion H23 as [| b' c l2' l3' [Hc' Hu'] Hrest]; subst. constructor.
    + split; [congruence | auto].
    + apply IH. assumption.
Qed.

(** X6.  Queries never change what an interpolator interpolates with: through
    any number of queries it keeps its value scale, its axis and its engine,
    and as many coordinate scales, each of the class it had; a coordinate
    scale that has recorded a unit keeps that unit for good. *)
Theorem queries_preserve_interpolator (start self : ScaledRegularGridInterpolator) :
  reachable start self ->
  scale self = scale start
  /\ axis self = axis start
  /\ _interpolate self = _interpolate start
  /\ Forall2 remembers (scale_points start) (scale_points self).
Proof.
  induction 1 as [| self points method clip kw _ IH].
  - repeat split.
    induction (scale_points start); constructor; [apply remembers_refl | assumption].
  - destruct IH as (Hs & Ha & Hi & Hp).
    rewrite call_unfold. cbv zeta.
    assert (Hstep : Forall2 remembers (scale_points start)
                      (fst (scale_each (scale_points self) points))).
    { eapply Forall2_remembers_trans; [exact Hp | apply scale_each_remembers]. }
    destruct (bind _ _) as [[values ws] | e]; simpl; repeat split; assumption.
Qed.

Lemma scale_keeps_shape (c : scale_class) (a : ndarray) : shape (_scale c a) = shape a.
Proof. destruct c; reflexivity. Qed.

Lemma call_keeps_shape (s s' : InterpolationScale) (p : value) (a : ndarray) :
  InterpolationScale_call s p = (s', Ok a) -> shape a = shape (magnitude p).
Proof.
  unfold InterpolationScale_call. intros H.
  destruct (_unit s) as [u0 |].
  - destruct p as [a0 | a0 u]; simpl in H; [discriminate |].
    destruct (conversion u u0); simpl in H; [| discriminate].
    injection H as _ <-. now rewrite scale_keeps_shape.
  - destruct p; injection H as _ <-; now rewrite scale_keeps_shape.
Qed.

Lemma scale_each_shapes (ss : list InterpolationScale) (points : list value)
    (ps : list ndarray) :
  snd (scale_each ss points) = Ok ps ->
  map shape ps = map (fun sp => shape (magnitude (snd sp))) (combine ss points).
Proof.
  revert points ps. induction ss as [| s ss IH]; intros [| p points] ps; simpl;
    try (intros H; injection H as <-; reflexivity).
  destruct (InterpolationScale_call s p) as [s' [a | e]] eqn:Hcall; simpl;
    [| discriminate].
  specialize (IH points). destruct (scale_each ss points) as [ss' [l | e]];
    simpl in *; [| discriminate].
  intros H. injection H as <-. simpl.
  rewrite (call_keeps_shape _ _ _ _ Hcall), (IH l eq_refl). reflexivity.
Qed.

Lemma inverse_keeps_shape (c : scale_class) (values out : ndarray) (ws : list warning) :
  _inverse c values = Ok (out, ws) -> shape out = shape values.
Proof.
  destruct c; simpl; intros H.
  - now injection H as <- _.
  - destruct (existsb is_tiny _).
    + destruct (shape values) eqn:Hs; [discriminate |]. injection H as <- _. exact Hs.
    + now injection H as <- _.
  - now injection H as <- _.
Qed.

Lemma Scale_inverse_shape_unit (s : InterpolationScale) (values : ndarray)
    (out : value) (ws : list warning) :
  InterpolationScale_inverse s values = Ok (out, ws) ->
  shape (magnitude out) = shape values /\ unit_of out = _unit s.
Proof.
  unfold InterpolationScale_inverse. intros H.
  destruct (_inverse (cls s) values) as [[o w] |] eqn:Hinv; simpl in H; [| discriminate].
  apply inverse_keeps_shape in Hinv.
  destruct (_unit s); injection H as <- _; simpl; auto.
Qed.

Lemma clip_keeps_shape_unit (v : value) :
  shape (magnitude (clip_at_zero v)) = shape (magnitude v)
  /\ unit_of (clip_at_zero v) = unit_of v.
Proof. destruct v; split; reflexivity. Qed.

(** The result of a query that returns, before clipping. *)
Lemma call_returns (self self' : ScaledRegularGridInterpolator) (points : list value)
    (method : option string) (clip : option bool) (kw : kwargs)
    (ws : list warning) (v : value) :
  ScaledRegularGridInterpolator_call self points method clip kw = (self', ws, Ok v) ->
  exists ps out,
    snd (scale_each (scale_points self) points) = Ok ps
    /\ interpolate_scaled self ps (default "linear"%string method) kw = Ok (out, ws)
    /\ v = if default true clip then clip_at_zero out else out.
Proof.
  rewrite call_unfold. cbv zeta. intros H.
  destruct (snd (scale_each (scale_points self) points)) as [ps |]; simpl bind in H;
    [| discriminate].
  destruct (interpolate_scaled self ps _ kw) as [[out ws'] |] eqn:Hout; [| discriminate].
  injection H as _ <- <-. exists ps, out. auto.
Qed.

Lemma call_result_unit (self self' : ScaledRegularGridInterpolator)
    (points : list value) (method : option string) (clip : option bool)
    (kw : kwargs) (ws : list warning) (v : value) :
  ScaledRegularGridInterpolator_call self points method clip kw = (self', ws, Ok v) ->
  unit_of v = _unit (scale self).
Proof.
  intros Hcall. apply call_returns in Hcall.
  destruct Hcall as (ps & out & _ & Hout & ->).
  destruct (interpolate_scaled_inverse _ _ _ _ _ _ Hout) as [values Hinv].
  apply Scale_inverse_shape_unit in Hinv. destruct Hinv as [_ <-].
  destruct (default true clip); [apply clip_keeps_shape_unit | reflexivity].
Qed.

(** X7.  A query that returns gives a quantity in the unit the value scale has
    recorded, or a plain array when it has recorded none.  Without [axis] the
    result has the shape to which the query's coordinate arrays broadcast
    (those that have a scale to go through). *)
Theorem query_result_shape_and_unit (self self' : ScaledRegularGridInterpolator)
    (points : list value) (method : option string) (clip : option bool)
    (kw : kwargs) (ws : list warning) (v : value) :
  ScaledRegularGridInterpolator_call self points method clip kw = (self', ws, Ok v) ->
  unit_of v = _unit (scale self)
  /\ (axis self = None ->
      np.broadcast_shapes
        (map (fun sp => shape (magnitude (snd sp))) (combine (scale_points self) points))
      = Some (shape (magnitude v))).
Proof.
  intros Hcall. apply call_returns in Hcall.
  destruct Hcall as (ps & out & Hps & Hout & ->).
  assert (Hclip : forall o : value,
             shape (magnitude (if default true clip then clip_at_zero o else o))
             = shape (magnitude o)
             /\ unit_of (if default true clip then clip_at_zero o else o) = unit_of o).
  { intros o. destruct (default true clip); [apply clip_keeps_shape_unit | auto]. }
  destruct (Hclip out) as [Hshape Hunit]. rewrite Hshape, Hunit.
  unfold interpolate_scaled in Hout.
  destruct (axis self) as [k |].
  - split; [| discriminate].
    destruct ps as [| p0 ps]; [discriminate |].
    destruct (_interpolate_1d _ p0) as [values |]; simpl in Hout; [| discriminate].
    now apply Scale_inverse_shape_unit in Hout.
  - unfold np.broadcast_arrays in Hout.
    rewrite <- (scale_each_shapes _ _ _ Hps).
    destruct (np.broadcast_shapes (map shape ps)) as [sh |]; simpl in Hout;
      [| discriminate].
    destruct ps as [| p0 ps]; [discriminate |]. cbn [map hd shape np.broadcast_to] in Hout.
    destruct (np.stack_flat_T _) as [xi |]; simpl in Hout; [| discriminate].
    destruct (_interpolate_nd _ xi _ kw) as [values |]; simpl in Hout; [| discriminate].
    unfold np.reshape in Hout.
    destruct (Nat.eqb _ _); simpl in Hout; [| discriminate].
    apply Scale_inverse_shape_unit in Hout. simpl in Hout.
    destruct Hout as [-> ->]. split; [reflexivity | intros _; reflexivity].
Qed.

End FurtherQueryProperties.

Section ClipAndWarnings.

Context {U : Units} {E : Engine}.

Lemma log_inverse_cases (values out : ndarray) (ws : list warning) :
  _inverse LogScale values = Ok (out, ws) ->
  (ws = [Warning "Interpolated values reached float32 precision limit"]
   /\ Exists (fun x => x = 0) (flat out)
   /\ Forall (fun x => x = 0 \/ 2 * tiny < x) (flat out))
  \/ (ws = [] /\ Forall (fun x => 2 * tiny < x) (flat out)).
Proof.
  unfold _inverse, np.exp, np.elementwise. cbn [flat shape].
  rewrite existsb_map.
  rewrite (existsb_pointwise _ (fun y => Rleb (exp y) (2 * tiny)))
    by (intros y; apply is_tiny_exp).
  destruct (existsb _ (flat values)) eqn:Hany.
  - destruct (shape values); [discriminate |]. intros H. injection H as <- <-.
    left. split; [reflexivity |]. cbn [flat]. rewrite map_map. split.
    + apply existsb_exists in Hany. destruct Hany as [y [Hin Hy]].
      apply Exists_exists. exists 0. split; [| reflexivity].
      apply in_map_iff. exists y. split; [| exact Hin].
      now rewrite is_tiny_exp, Hy.
    + apply Forall_forall. intros x Hx. apply in_map_iff in Hx.
      destruct Hx as [y [<- _]]. rewrite is_tiny_exp.
      unfold Rleb. destruct (Rle_dec (exp y) (2 * tiny)); [left; reflexivity | right; lra].
  - intros H. injection H as <- <-. right. split; [reflexivity |]. cbn [flat].
    apply Forall_forall. intros x Hx. apply in_map_iff in Hx.
    destruct Hx as [y [<- Hin]].
    assert (Hy : Rleb (exp y) (2 * tiny) = false).
    { destruct (Rleb (exp y) (2 * tiny)) eqn:Hy; [| reflexivity].
      assert (existsb (fun y => Rleb (exp y) (2 * tiny)) (flat values) = true)
        by (apply existsb_exists; exists y; auto).
      congruence. }
    unfold Rleb in Hy. destruct (Rle_dec (exp y) (2 * tiny)); [discriminate | lra].
Qed.

Lemma inverse_nonnegative (s : InterpolationScale) (values : ndarray)
    (out : value) (ws : list warning) :
  cls s <> LinearScale ->
  InterpolationScale_inverse s values = Ok (out, ws) ->
  nonnegative out.
Proof.
  intros Hcls. unfold InterpolationScale_inverse, nonnegative. intros H.
  destruct (_inverse (cls s) values) as [[o w] |] eqn:Hinv; simpl in H; [| discriminate].
  assert (Ho : Forall (fun x => 0 <= x) (flat o)).
  { pose proof tiny_pos as Ht.
    destruct (cls s); [contradiction | |].
    - apply log_inverse_cases in Hinv.
      destruct Hinv as [(_ & _ & Hall) | (_ & Hall)];
        eapply Forall_impl; try exact Hall; simpl; intros x Hx; lra.
    - simpl in Hinv. injection Hinv as <- _. simpl.
      apply Forall_forall. intros x Hx. apply in_map_iff in Hx.
      destruct Hx as [y [<- _]]. apply pow2_ge_0. }
  destruct (_unit s); injection H as <- _; exact Ho.
Qed.

Lemma interpolate_scaled_nonnegative (self : ScaledRegularGridInterpolator)
    (ps : list ndarray) (method : string) (kw : kwargs) (out : value)
    (ws : list warning) :
  cls (scale self) <> LinearScale ->
  interpolate_scaled self ps method kw = Ok (out, ws) ->
  nonnegative out.
Proof.
  intros Hcls Hout.
  destruct (interpolate_scaled_inverse _ _ _ _ _ _ Hout) as [values Hinv].
  exact (inverse_nonnegative _ _ _ _ Hcls Hinv).
Qed.

(** X8.  Clipping only matters for the linear value scale: an interpolator
    whose value scale is the log or the sqrt scale returns the same
    interpolator, warnings and result with [clip=True] and with [clip=False]. *)
Theorem clip_only_matters_for_linear (self : ScaledRegularGridInterpolator)
    (points : list value) (method : option string) (kw : kwargs) :
  cls (scale self) <> LinearScale ->
  ScaledRegularGridInterpolator_call self points method (Some true) kw
  = ScaledRegularGridInterpolator_call self points method (Some false) kw.
Proof.
  intros Hcls. rewrite !call_unfold. cbv zeta.
  destruct (snd (scale_each (scale_points self) points)) as [ps |]; simpl bind;
    [| reflexivity].
  destruct (interpolate_scaled self ps _ kw) as [[out ws] |] eqn:Hout; [| reflexivity].
  simpl. rewrite clip_at_zero_fixes_nonnegative; [reflexivity |].
  exact (interpolate_scaled_nonnegative _ _ _ _ _ _ Hcls Hout).
Qed.

(** X9.  A query that raises issues no warning, and so does every query on an
    interpolator whose value scale is not the log scale.  With the log scale, a
    query that returns does one of two things: it issues the one precision
    warning and returns at least one element that is exactly zero, every other
    element exceeding [2 * tiny]; or it issues no warning and every element it
    returns exceeds [2 * tiny]. *)
Theorem query_warnings (self self' : ScaledRegularGridInterpolator)
    (points : list value) (method : option string) (clip : option bool)
    (kw : kwargs) (ws : list warning) (r : result value) :
  ScaledRegularGridInterpolator_call self points method clip kw = (self', ws, r) ->
  (forall e, r = Raise e -> ws = [])
  /\ (cls (scale self) <> LogScale -> ws = [])
  /\ (cls (scale self) = LogScale ->
      forall v, r = Ok v ->
        (ws = [Warning "Interpolated values reached float32 precision limit"]
         /\ Exists (fun x => x = 0) (flat (magnitude v))
         /\ Forall (fun x => x = 0 \/ 2 * tiny < x) (flat (magnitude v)))
        \/ (ws = [] /\ Forall (fun x => 2 * tiny < x) (flat (magnitude v)))).
Proof.
  intros Hcall.
  assert (Hraise : forall e, r = Raise e -> ws = []).
  { intros e ->. rewrite call_unfold in Hcall. cbv zeta in Hcall.
    destruct (bind _ _) as [[values ws'] |]; [discriminate | congruence]. }
  split; [exact Hraise |].
  destruct r as [v | e]; [| split; [intros _; eauto | intros _ v Hv; discriminate]].
  apply call_returns in Hcall. destruct Hcall as (ps & out & _ & Hout & Hv).
  destruct (interpolate_scaled_inverse _ _ _ _ _ _ Hout) as [values Hinv].
  unfold InterpolationScale_inverse in Hinv.
  destruct (_inverse (cls (scale self)) values) as [[o w] |] eqn:Hraw; simpl in Hinv;
    [| discriminate].
  assert (Hows : magnitude out = o /\ ws = w)
    by (destruct (_unit (scale self)); injection Hinv as <- <-; auto).
  destruct Hows as [Ho ->].
  split.
  - intros Hcls. destruct (cls (scale self)); [| contradiction |];
      simpl in Hraw; now injection Hraw as _ <-.
  - intros Hcls v' Hv'. injection Hv' as <-.
    assert (Hsame : v = out).
    { rewrite Hv. destruct (default true clip); [| reflexivity].
      apply clip_at_zero_fixes_nonnegative.
      assert (Hnl : cls (scale self) <> LinearScale) by congruence.
      exact (interpolate_scaled_nonnegative _ _ _ _ _ _ Hnl Hout). }
    rewrite Hsame, Ho. rewrite Hcls in Hraw. exact (log_inverse_cases _ _ _ Hraw).
Qed.

(** X10.  A coordinate scale that has recorded a unit accepts quantities only:
    a query whose first coordinate array is a plain array raises
    [AttributeError], and one whose first coordinate is a quantity in a unit
    that does not convert to the recorded one raises [UnitConversionError].
    Either way the interpolator is left as it was and nothing is interpolated. *)
Theorem query_in_the_wrong_unit (s : InterpolationScale)
    (others : list InterpolationScale) (value_scale : InterpolationScale)
    (ax : option Z) (engine : RegularGridInterpolator + interp1d) (u0 u : unit)
    (a : ndarray) (more : list value) (method : option string)
    (clip : option bool) (kw : kwargs) :
  _unit s = Some u0 ->
  let self := mk_interpolator (s :: others) value_scale ax engine in
  ScaledRegularGridInterpolator_call self (Arr a :: more) method clip kw
  = (self, [],
     Raise (AttributeError "'numpy.ndarray' object has no attribute 'to_value'"))
  /\ (conversion u u0 = None ->
      ScaledRegularGridInterpolator_call self (Qty a u :: more) method clip kw
      = (self, [], Raise UnitConversionError)).
Proof.
  intros Hs self. subst self. split; [| intros Hconv];
    unfold ScaledRegularGridInterpolator_call; cbn [scale_points scale_each];
    unfold InterpolationScale_call; rewrite Hs; cbn [to_value bind];
    rewrite ?Hconv; reflexivity.
Qed.

(** X11.  A query without coordinate arrays, or on an interpolator without
    coordinate scales, raises before the engine is asked: [ValueError] from the
    stacking of no arrays when [axis] is unset, [IndexError] from the missing
    first array when it is set.  The interpolator is left as it was. *)
Theorem query_without_points (self : ScaledRegularGridInterpolator)
    (points : list value) (method : option string) (clip : option bool)
    (kw : kwargs) :
  points = [] \/ scale_points self = [] ->
  ScaledRegularGridInterpolator_call self points method clip kw
  = (self, [],
     Raise (match axis self with
            | None => ValueError "need at least one array to stack"
            | Some _ => IndexError "tuple index out of range"
            end)).
Proof.
  intros Hempty. destruct self as [sp sc ax h].
  unfold ScaledRegularGridInterpolator_call, interpolate_scaled.
  cbn [scale_points scale axis _interpolate].
  assert (Heach : scale_each sp points = (sp, Ok [])).
  { destruct Hempty as [-> | Hsp]; [destruct sp; reflexivity |].
    simpl in Hsp. subst sp. reflexivity. }
  rewrite Heach. destruct ax; reflexivity.
Qed.

End ClipAndWarnings.

(** ** The likelihood-profile helper, once more *)

Lemma gradient_from_rising (rest : list R) (prev cur : R) :
  prev < cur -> rising (cur :: rest) ->
  Forall (fun g => 0 < g) (np.gradient_from prev cur rest).
Proof.
  revert prev cur. induction rest as [| next rest IH]; intros prev cur Hpc Hr.
  - constructor; [lra | constructor].
  - destruct Hr as [Hcn Hr]. cbn [np.gradient_from]. constructor; [lra |].
    apply IH; assumption.
Qed.

Lemma gradient_from_falling (rest : list R) (prev cur : R) :
  cur < prev -> falling (cur :: rest) ->
  Forall (fun g => g < 0) (np.gradient_from prev cur rest).
Proof.
  revert prev cur. induction rest as [| next rest IH]; intros prev cur Hpc Hr.
  - constructor; [lra | constructor].
  - destruct Hr as [Hcn Hr]. cbn [np.gradient_from]. constructor; [lra |].
    apply IH; assumption.
Qed.

Lemma zip_mul_positive_signs (g d : list R) :
  Forall (fun x => 0 < x) g -> List.length g = List.length d ->
  np.zip_mul (map np.sign1 g) d = d.
Proof.
  intros Hg. revert d. induction Hg as [| x g Hx _ IH]; intros [| y d] Hlen;
    simpl in *; try reflexivity; try discriminate.
  rewrite IH by lia. f_equal. unfold np.sign1.
  destruct (Rlt_dec x 0); [lra |]. destruct (Rlt_dec 0 x); lra.
Qed.

Lemma zip_mul_negative_signs (g d : list R) :
  Forall (fun x => x < 0) g -> List.length g = List.length d ->
  np.zip_mul (map np.sign1 g) d = map Ropp d.
Proof.
  intros Hg. revert d. induction Hg as [| x g Hx _ IH]; intros [| y d] Hlen;
    simpl in *; try reflexivity; try discriminate.
  rewrite IH by lia. f_equal. unfold np.sign1.
  destruct (Rlt_dec x 0); lra.
Qed.

Section FurtherHelperProperties.

Context {U : Units} {E : Engine}.

(** X12.  On a scan of at least two values that strictly rise, the helper
    builds the interpolator of the scan as it is; on one that strictly falls,
    the interpolator of the negated scan. *)
Theorem likelihood_profile_on_monotone_scan (value_scan : value)
    (dloglike_scan : list R) (interp_scale : option string) :
  (2 <= List.length dloglike_scan)%nat ->
  (rising dloglike_scan ->
   interpolate_likelihood_profile value_scan dloglike_scan interp_scale
   = ScaledRegularGridInterpolator_init [value_scan] (Arr (np.array1 dloglike_scan))
       None (Some (default "sqrt"%string interp_scale)) None None [])
  /\ (falling dloglike_scan ->
      interpolate_likelihood_profile value_scan dloglike_scan interp_scale
      = ScaledRegularGridInterpolator_init [value_scan]
          (Arr (np.array1 (map Ropp dloglike_scan)))
          None (Some (default "sqrt"%string interp_scale)) None None []).
Proof.
  intros Hlen.
  destruct dloglike_scan as [| f0 [| f1 rest]]; simpl in Hlen; try lia.
  unfold interpolate_likelihood_profile. cbn [np.gradient bind].
  unfold np.multiply, np.array1. cbn [shape flat].
  split; intros [H01 Hrest].
  - rewrite zip_mul_positive_signs.
    + rewrite length_map. simpl. now rewrite gradient_from_length.
    + constructor; [lra | apply gradient_from_rising; assumption].
    + simpl. now rewrite gradient_from_length.
  - rewrite zip_mul_negative_signs.
    + rewrite !length_map. simpl. now rewrite gradient_from_length.
    + constructor; [lra | apply gradient_from_falling; assumption].
    + simpl. now rewrite gradient_from_length.
Qed.

(** X13.  The interpolator the helper returns has no axis, one coordinate
    scale, linear and holding the unit of [value_scan], and a value scale of
    the class [interp_scale] names, holding no unit: whatever is queried, and
    whenever, a result it returns is a plain array. *)
Theorem likelihood_profile_interpolator (value_scan : value)
    (dloglike_scan : list R) (interp_scale : option string)
    (it self self' : ScaledRegularGridInterpolator) (points : list value)
    (method : option string) (clip : option bool) (kw : kwargs)
    (ws : list warning) (v : value) :
  interpolate_likelihood_profile value_scan dloglike_scan interp_scale = Ok it ->
  axis it = None
  /\ scale_points it = [mk_scale LinearScale (unit_of value_scan)]
  /\ Some (cls (scale it)) = spec_scale_class (default "sqrt"%string interp_scale)
  /\ _unit (scale it) = None
  /\ (reachable it self ->
      ScaledRegularGridInterpolator_call self points method clip kw = (self', ws, Ok v) ->
      unit_of v = None).
Proof.
  unfold interpolate_likelihood_profile. intros Hit.
  destruct (np.gradient dloglike_scan) as [g |]; cbn [bind] in Hit; [| discriminate].
  destruct (spec_scale_class (default "sqrt"%string interp_scale)) as [c |] eqn:Hc.
  2:{ exfalso. unfold ScaledRegularGridInterpolator_init in Hit. cbn in Hit.
      rewrite interpolation_scale_spec in Hit. cbn [default] in Hc.
      rewrite Hc in Hit. discriminate. }
  rewrite (init_with_valid_names [value_scan] _ None
             (Some (default "sqrt"%string interp_scale)) None None []
             [LinearScale] c eq_refl Hc) in Hit.
  destruct (RegularGridInterpolator_init _ _ _) as [rgi |]; cbn [bind] in Hit;
    [| discriminate].
  injection Hit as <-. cbn [axis scale_points scale cls _unit].
  repeat split.
  intros Hreach Hcall.
  rewrite (call_result_unit _ _ _ _ _ _ _ _ Hcall), (reachable_scale _ _ Hreach).
  reflexivity.
Qed.

End FurtherHelperProperties.

(** ** Instances of the further properties *)

Section FurtherExamples.

#[local] Existing Instance Reference.units.
#[local] Existing Instance Reference.engine.

Lemma sqrt_scale_odd_increasing_witness : signed_sqrt 1 < signed_sqrt 4.
Proof.
  apply (proj2 (proj2 (sqrt_scale_odd_increasing (np.array1 []) 1 4))). lra.
Defined.

Lemma log_scale_floor_witness :
  clipped_log 0 = ln tiny
  /\ clipped_log 1 <= clipped_log 2
  /\ clipped_log 1 < clipped_log 2.
Proof.
  destruct tiny_bounds as [Hpos Hsmall].
  destruct (log_scale_floor (np.array1 []) 0 0) as (_ & _ & Hbelow & _ & _).
  destruct (log_scale_floor (np.array1 []) 1 2) as (_ & _ & _ & Hle & Hlt).
  split; [apply Hbelow; lra | split; [apply Hle; lra | apply Hlt; lra]].
Defined.


Lemma constructor_failures_witness :
  exists e : exn,
    ScaledRegularGridInterpolator_init [] (Arr (np.array1 [1; 4]))
      None None None (Some 0%Z) [] = Raise e
    /\ ((exists bad,
            In bad ([] ++ ["lin"%string]) /\ spec_scale_class bad = None
            /\ e = ValueError (invalid_scale_message bad))
        \/ (Some 0%Z = None
            /\ exists grid vals options,
                 Reference.rgi_init grid vals options = Raise e)
        \/ (exists k,
              Some 0%Z = Some k
              /\ ((e = IndexError "tuple index out of range"
                   /\ (@nil value = [] \/ @nil string = []))
                  \/ exists x y, Reference.i1d_init x y k = Raise e))).
Proof.
  eexists.
  assert (Hfails : forall e,
             ScaledRegularGridInterpolator_init [] (Arr (np.array1 [1; 4]))
               None None None (Some 0%Z) [] = Raise e ->
             ScaledRegularGridInterpolator_init [] (Arr (np.array1 [1; 4]))
               None None None (Some 0%Z) [] = Raise e
             /\ ((exists bad,
                     In bad ([] ++ ["lin"%string]) /\ spec_scale_class bad = None
                     /\ e = ValueError (invalid_scale_message bad))
                 \/ (Some 0%Z = None
                     /\ exists grid vals options,
                          Reference.rgi_init grid vals options = Raise e)
                 \/ (exists k,
                       Some 0%Z = Some k
                       /\ ((e = IndexError "tuple index out of range"
                            /\ (@nil value = [] \/ @nil string = []))
                           \/ exists x y, Reference.i1d_init x y k = Raise e)))).
  { intros e He. split; [exact He |].
    exact (constructor_failures [] (Arr (np.array1 [1; 4])) None None None
             (Some 0%Z) [] e He). }
  apply Hfails. reflexivity.
Defined.

Lemma queries_preserve_interpolator_witness :
  exists it : ScaledRegularGridInterpolator,
    ScaledRegularGridInterpolator_init [Arr (np.array1 [1; 2])] (Arr (np.array1 [1; 4]))
      None None None None [] = Ok it
    /\ let after :=
         fst (fst (ScaledRegularGridInterpolator_call it
                     [Qty (np.array1 [1]) Reference.TeV] None None [])) in
       scale after = scale it
       /\ axis after = axis it
       /\ _interpolate after = _interpolate it
       /\ Forall2 remembers (scale_points it) (scale_points after).
Proof.
  eexists. split; [run_reference; reflexivity |].
  apply queries_preserve_interpolator. apply reach_call. apply reach_start.
Defined.

Lemma query_result_shape_and_unit_witness :
  exists (it : ScaledRegularGridInterpolator) (v : value),
    ScaledRegularGridInterpolator_init [Arr (np.array1 [1; 2])] (Arr (np.array1 [1; 4]))
      None None None None [] = Ok it
    /\ ScaledRegularGridInterpolator_call it [Arr (np.array1 [1; 2; 1])] None None []
       = (it, [], Ok v)
    /\ unit_of v = None
    /\ shape (magnitude v) = [3%nat].
Proof.
  do 2 eexists. split; [run_reference; reflexivity |].
  assert (Hquery : forall (it : ScaledRegularGridInterpolator) v,
             axis it = None ->
             _unit (scale it) = None ->
             scale_points it = [new_scale LinearScale] ->
             ScaledRegularGridInterpolator_call it [Arr (np.array1 [1; 2; 1])] None None []
             = (it, [], Ok v) ->
             ScaledRegularGridInterpolator_call it [Arr (np.array1 [1; 2; 1])] None None []
             = (it, [], Ok v)
             /\ unit_of v = None
             /\ shape (magnitude v) = [3%nat]).
  { intros it v Hax Hu Hsp Hcall. split; [exact Hcall |].
    destruct (query_result_shape_and_unit _ _ _ _ _ _ _ v Hcall) as [Hunit Hshape].
    split; [congruence |].
    specialize (Hshape Hax). rewrite Hsp in Hshape. simpl in Hshape.
    change (np.broadcast_shape [3%nat] []) with (Some [3%nat]) in Hshape.
    congruence. }
  apply Hquery; try reflexivity.
  rewrite call_unfold. run_reference. reflexivity.
Defined.

Lemma clip_only_matters_for_linear_witness :
  exists it : ScaledRegularGridInterpolator,
    ScaledRegularGridInterpolator_init [Arr (np.array1 [1; 2])] (Arr (np.array1 [1; 4]))
      None (Some "sqrt"%string) None None [] = Ok it
    /\ ScaledRegularGridInterpolator_call it [Arr (np.array1 [1])] None (Some true) []
       = ScaledRegularGridInterpolator_call it [Arr (np.array1 [1])] None (Some false) [].
Proof.
  eexists. split; [run_reference; reflexivity |].
  apply clip_only_matters_for_linear. simpl. discriminate.
Defined.

Lemma query_warnings_witness :
  (exists (it : ScaledRegularGridInterpolator) (v : value),
      ScaledRegularGridInterpolator_init [Arr (np.array1 [1; 2])]
        (Arr (np.array1 [1; 4])) None None None None [] = Ok it
      /\ ScaledRegularGridInterpolator_call it [Arr (np.array1 [1])] None None []
         = (it, [], Ok v))
  /\ (exists (it : ScaledRegularGridInterpolator) (v : value),
        ScaledRegularGridInterpolator_init [Arr (np.array1 [1; 2; 3; 4])]
          (Arr (np.array1 [10; 100; 1000; 10000])) None (Some "log"%string)
          None None [] = Ok it
        /\ ScaledRegularGridInterpolator_call it [Arr (np.array1 [2])] None None []
           = (it, [], Ok v)
        /\ Forall (fun x => 2 * tiny < x) (flat (magnitude v))).
Proof.
  destruct tiny_bounds as [Hpos Hsmall].
  split.
  - do 2 eexists. split; [run_reference; reflexivity |].
    assert (Hquiet : forall (it it' : ScaledRegularGridInterpolator) ws v,
               cls (scale it) <> LogScale ->
               ScaledRegularGridInterpolator_call it [Arr (np.array1 [1])] None None []
               = (it', ws, Ok v) ->
               ScaledRegularGridInterpolator_call it [Arr (np.array1 [1])] None None []
               = (it', [], Ok v)).
    { intros it it' ws v Hcls Hcall.
      pose proof (proj1 (proj2 (query_warnings _ _ _ _ _ _ _ _ Hcall)) Hcls) as Hws.
      subst ws. exact Hcall. }
    eapply Hquiet; [simpl; discriminate |].
    rewrite call_unfold. run_reference. reflexivity.
  - do 2 eexists. split; [run_reference; reflexivity |].
    rewrite !Rmax_left by lra.
    assert (Hloud : forall (it it' : ScaledRegularGridInterpolator) v,
               cls (scale it) = LogScale ->
               ScaledRegularGridInterpolator_call it [Arr (np.array1 [2])] None None []
               = (it', [], Ok v) ->
               ScaledRegularGridInterpolator_call it [Arr (np.array1 [2])] None None []
               = (it', [], Ok v)
               /\ Forall (fun x => 2 * tiny < x) (flat (magnitude v))).
    { intros it it' v Hcls Hcall. split; [exact Hcall |].
      destruct (proj2 (proj2 (query_warnings _ _ _ _ _ _ _ _ Hcall)) Hcls v eq_refl)
        as [(Hws & _) | (_ & Hall)]; [discriminate | exact Hall]. }
    apply Hloud; [reflexivity |].
    rewrite call_unfold. run_reference.
    replace ((1 - (2 - 1) / (2 - 1)) * ln 10 + (2 - 1) / (2 - 1) * ln 100)
      with (ln 100) by lra.
    rewrite log_inverse_single by (rewrite exp_ln; lra).
    reflexivity.
Defined.

Lemma query_in_the_wrong_unit_witness :
  let self := mk_interpolator [mk_scale LinearScale (Some Reference.TeV)]
                (new_scale LinearScale) None
                (inl (Reference.mk_rgi [[1; 2]] [1; 4] "linear" false
                        Reference.FillExtrapolate)) in
  ScaledRegularGridInterpolator_call self [Arr (np.array1 [1])] None None []
  = (self, [],
     Raise (AttributeError "'numpy.ndarray' object has no attribute 'to_value'"))
  /\ ScaledRegularGridInterpolator_call self [Qty (np.array1 [1]) Reference.cm]
       None None []
     = (self, [], Raise UnitConversionError).
Proof.
  intros self.
  destruct (query_in_the_wrong_unit
              (@mk_scale Reference.units LinearScale (Some Reference.TeV)) []
              (new_scale LinearScale) None
              (inl (Reference.mk_rgi [[1; 2]] [1; 4] "linear" false
                      Reference.FillExtrapolate)
               : @RegularGridInterpolator Reference.engine + @interp1d Reference.engine)
              Reference.TeV Reference.cm (np.array1 [1]) [] None None [] eq_refl)
    as [Hplain Hunit].
  split; [exact Hplain | apply Hunit; reflexivity].
Defined.

Lemma query_without_points_witness :
  exists it : ScaledRegularGridInterpolator,
    ScaledRegularGridInterpolator_init [Arr (np.array1 [1; 2])] (Arr (np.array1 [1; 4]))
      None None None None [] = Ok it
    /\ ScaledRegularGridInterpolator_call it [] None None []
       = (it, [], Raise (ValueError "need at least one array to stack")).
Proof.
  eexists. split; [run_reference; reflexivity |].
  assert (Hempty : forall it : ScaledRegularGridInterpolator,
             axis it = None ->
             ScaledRegularGridInterpolator_call it [] None None []
             = (it, [], Raise (ValueError "need at least one array to stack"))).
  { intros it Hax.
    rewrite (query_without_points it [] None None []) by (left; reflexivity).
    now rewrite Hax. }
  apply Hempty. reflexivity.
Defined.

Lemma likelihood_profile_on_monotone_scan_witness :
  interpolate_likelihood_profile (Arr (np.array1 [1; 2; 3])) [1; 2; 4] None
  = ScaledRegularGridInterpolator_init [Arr (np.array1 [1; 2; 3])]
      (Arr (np.array1 [1; 2; 4])) None (Some "sqrt"%string) None None []
  /\ interpolate_likelihood_profile (Arr (np.array1 [1; 2; 3])) [4; 2; 1] None
     = ScaledRegularGridInterpolator_init [Arr (np.array1 [1; 2; 3])]
         (Arr (np.array1 (map Ropp [4; 2; 1]))) None (Some "sqrt"%string) None None [].
Proof.
  split.
  - apply (likelihood_profile_on_monotone_scan (Arr (np.array1 [1; 2; 3])) [1; 2; 4] None).
    + simpl. lia.
    + simpl. lra.
  - apply (likelihood_profile_on_monotone_scan (Arr (np.array1 [1; 2; 3])) [4; 2; 1] None).
    + simpl. lia.
    + simpl. lra.
Defined.

Lemma likelihood_profile_interpolator_witness :
  exists it : ScaledRegularGridInterpolator,
    interpolate_likelihood_profile (Qty (np.array1 [1; 2; 3]) Reference.TeV)
      [1; 2; 4] None = Ok it
    /\ axis it = None
    /\ scale_points it = [mk_scale LinearScale (Some Reference.TeV)]
    /\ _unit (scale it) = None.
Proof.
  eexists.
  assert (Hbuilt : forall it,
             interpolate_likelihood_profile (Qty (np.array1 [1; 2; 3]) Reference.TeV)
               [1; 2; 4] None = Ok it ->
             interpolate_likelihood_profile (Qty (np.array1 [1; 2; 3]) Reference.TeV)
               [1; 2; 4] None = Ok it
             /\ axis it = None
             /\ scale_points it = [mk_scale LinearScale (Some Reference.TeV)]
             /\ _unit (scale it) = None).
  { intros it Hit. split; [exact Hit |].
    destruct (likelihood_profile_interpolator _ _ _ it it it [] None None []
                [] (Arr (np.array1 [])) Hit) as (Ha & Hsp & _ & Hu & _).
    repeat split; assumption. }
  apply Hbuilt.
  unfold interpolate_likelihood_profile. run_reference. reflexivity.
Defined.

End FurtherExamples.

(** ** Units and surplus arrays in queries *)

Section UnitsAndSurplus.

Context {U : Units} {E : Engine}.

Lemma scale_each_surplus (ss : list InterpolationScale) (points extra : list value) :
  (List.length ss <= List.length points)%nat ->
  scale_each ss (points ++ extra) = scale_each ss points.
Proof.
  revert points. induction ss as [| s ss IH]; intros points Hlen.
  - destruct points, extra; reflexivity.
  - destruct points as [| p points]; simpl in Hlen; [lia |].
    cbn [app scale_each]. rewrite IH by lia. reflexivity.
Qed.

Lemma interpolation_scales_length (names : list string) (ss : list InterpolationScale) :
  interpolation_scales names = Ok ss -> List.length ss = List.length names.
Proof.
  revert ss. induction names as [| name names IH]; simpl; intros ss H.
  - now injection H as <-.
  - destruct (interpolation_scale name); simpl in H; [| discriminate].
    destruct (interpolation_scales names) as [ss' |]; simpl in H; [| discriminate].
    injection H as <-. simpl. now rewrite (IH ss' eq_refl).
Qed.

(** X14.  Coordinate arrays beyond the number of coordinate scales are ignored
    without notice: a query with surplus arrays does what the query without
    them does, and so does a constructor that is given scale names for fewer
    arrays than it is given. *)
Theorem surplus_arrays_are_ignored (self : ScaledRegularGridInterpolator)
    (points extra : list value) (method : option string) (clip : option bool)
    (kw : kwargs) (values : value) (names : list string)
    (values_scale : option string) (extrapolate : option bool) (ax : option Z) :
  ((List.length (scale_points self) <= List.length points)%nat ->
   ScaledRegularGridInterpolator_call self (points ++ extra) method clip kw
   = ScaledRegularGridInterpolator_call self points method clip kw)
  /\ ((List.length names <= List.length points)%nat ->
      ScaledRegularGridInterpolator_init (points ++ extra) values (Some names)
        values_scale extrapolate ax kw
      = ScaledRegularGridInterpolator_init points values (Some names)
          values_scale extrapolate ax kw).
Proof.
  split; intros Hlen.
  - unfold ScaledRegularGridInterpolator_call.
    now rewrite scale_each_surplus.
  - unfold ScaledRegularGridInterpolator_init.
    destruct (interpolation_scales names) as [ss |] eqn:Hss; cbn [bind]; [| reflexivity].
    destruct (interpolation_scale _) as [sc |]; cbn [bind]; [| reflexivity].
    rewrite scale_each_surplus; [reflexivity |].
    rewrite (interpolation_scales_length _ _ Hss). exact Hlen.
Qed.

(** X15.  A coordinate scale that has recorded a unit converts what it is
    given: a query whose first coordinate is a quantity in another,
    convertible unit does what the query with that coordinate converted to the
    recorded unit does, provided converting from the recorded unit to itself
    is the factor 1. *)
Theorem query_in_a_convertible_unit (s : InterpolationScale)
    (others : list InterpolationScale) (value_scale : InterpolationScale)
    (ax : option Z) (engine : RegularGridInterpolator + interp1d) (u0 u : unit)
    (k : R) (a : ndarray) (more : list value) (method : option string)
    (clip : option bool) (kw : kwargs) :
  _unit s = Some u0 ->
  conversion u u0 = Some k ->
  conversion u0 u0 = Some 1 ->
  let self := mk_interpolator (s :: others) value_scale ax engine in
  ScaledRegularGridInterpolator_call self (Qty a u :: more) method clip kw
  = ScaledRegularGridInterpolator_call self
      (Qty (np.elementwise (fun x => x * k) a) u0 :: more) method clip kw.
Proof.
  intros Hs Hk H1 self. subst self.
  unfold ScaledRegularGridInterpolator_call. cbn [scale_points scale_each].
  unfold InterpolationScale_call. rewrite Hs. cbn [to_value]. rewrite Hk, H1.
  cbn [bind].
  replace (np.elementwise (fun x => x * 1) (np.elementwise (fun x => x * k) a))
    with (np.elementwise (fun x => x * k) a); [reflexivity |].
  unfold np.elementwise. cbn [shape flat]. f_equal.
  rewrite map_map. apply map_ext. intros x. lra.
Qed.

End UnitsAndSurplus.

(** ** A parabolic profile *)

Lemma nth_map_inside {A : Type} (f : A -> R) (l : list A) (d : A) (i : nat) :
  (i < List.length l)%nat -> nth i (map f l) 0 = f (nth i l d).
Proof.
  revert i. induction l as [| x l IH]; intros [| i] Hi; simpl in *; try lia.
  - reflexivity.
  - apply IH. lia.
Qed.

Lemma uniform_grid_nth (x0 h : R) (n i : nat) :
  (i < n)%nat -> nth i (uniform_grid x0 h n) 0 = x0 + h * INR i.
Proof.
  intros Hi. unfold uniform_grid.
  rewrite (nth_map_inside _ _ 0%nat) by (rewrite length_seq; exact Hi).
  now rewrite seq_nth.
Qed.

Lemma parabola_nth (a m : R) (xs : list R) (i : nat) :
  (i < List.length xs)%nat ->
  nth i (parabola a m xs) 0 = a * (nth i xs 0 - m) ^ 2.
Proof.
  intros Hi. unfold parabola. now rewrite (nth_map_inside _ _ 0).
Qed.

Lemma gradient_by_index (l : list R) :
  (2 <= List.length l)%nat ->
  exists g : list R,
    np.gradient l = Ok g
    /\ List.length g = List.length l
    /\ nth 0 g 0 = nth 1 l 0 - nth 0 l 0
    /\ (forall i, (S (S i) < List.length l)%nat ->
          nth (S i) g 0 = (nth (S (S i)) l 0 - nth i l 0) / 2)
    /\ nth (List.length l - 1) g 0
       = nth (List.length l - 1) l 0 - nth (List.length l - 2) l 0.
Proof.
  intros Hlen. destruct l as [| f0 [| f1 rest]]; simpl in Hlen; try lia.
  exists (f1 - f0 :: np.gradient_from f0 f1 rest).
  split; [reflexivity |].
  split; [simpl; now rewrite gradient_from_length |].
  split; [reflexivity |]. split.
  - intros i Hi. simpl in Hi.
    change (nth (S i) (f1 - f0 :: np.gradient_from f0 f1 rest) 0)
      with (nth i (np.gradient_from f0 f1 rest) 0).
    apply gradient_from_inner. lia.
  - change (List.length (f0 :: f1 :: rest) - 1)%nat with (S (List.length rest)).
    change (List.length (f0 :: f1 :: rest) - 2)%nat with (List.length rest - 0)%nat.
    rewrite Nat.sub_0_r.
    change (nth (S (List.length rest)) (f1 - f0 :: np.gradient_from f0 f1 rest) 0)
      with (nth (List.length rest) (np.gradient_from f0 f1 rest) 0).
    apply gradient_from_last.
Qed.

Lemma zip_mul_nth (a b : list R) (i : nat) :
  nth i (np.zip_mul a b) 0 = nth i a 0 * nth i b 0.
Proof.
  revert b i. induction a as [| x a IH]; intros b i.
  - destruct i; simpl; lra.
  - destruct b as [| y b].
    + destruct i; simpl; lra.
    + destruct i as [| i]; simpl; [reflexivity | apply IH].
Qed.

Lemma zip_mul_length (a b : list R) :
  List.length (np.zip_mul a b) = Nat.min (List.length a) (List.length b).
Proof.
  revert b. induction a as [| x a IH]; intros [| y b]; simpl; try reflexivity.
  now rewrite IH.
Qed.

Lemma sign1_positive (x : R) : 0 < x -> np.sign1 x = 1.
Proof.
  intros H. unfold np.sign1. destruct (Rlt_dec x 0); [lra |].
  destruct (Rlt_dec 0 x); [reflexivity | lra].
Qed.

Lemma sign1_negative (x : R) : x < 0 -> np.sign1 x = -1.
Proof. intros H. unfold np.sign1. destruct (Rlt_dec x 0); [reflexivity | lra]. Qed.

Lemma sign1_zero : np.sign1 0 = 0.
Proof.
  unfold np.sign1. destruct (Rlt_dec 0 0); [lra |]. destruct (Rlt_dec 0 0); lra.
Qed.

(** The sign of [slope] applied to [a * t^2], when [slope] has the sign of
    [t] wherever [t] is not zero. *)
Lemma signed_parabola_value (a t slope : R) :
  (0 < t -> 0 < slope) -> (t < 0 -> slope < 0) ->
  np.sign1 slope * (a * t ^ 2) = a * (t * Rabs t).
Proof.
  intros Hpos Hneg.
  destruct (Rtotal_order t 0) as [Ht | [Ht | Ht]].
  - rewrite sign1_negative by auto. rewrite Rabs_left by exact Ht. simpl. lra.
  - subst t. rewrite Rabs_R0. simpl. lra.
  - rewrite sign1_positive by auto. rewrite Rabs_right by lra. simpl. lra.
Qed.

Lemma signed_sqrt_of_signed_square (a t : R) :
  0 < a -> signed_sqrt (a * (t * Rabs t)) = sqrt a * t.
Proof.
  intros Ha. rewrite signed_sqrt_cases.
  destruct (Rtotal_order t 0) as [Ht | [Ht | Ht]].
  - rewrite Rabs_left by exact Ht.
    assert (Hsq : 0 < t * t) by nra.
    destruct (Rlt_dec (a * (t * - t)) 0) as [_ | Hn]; [| exfalso; nra].
    replace (- (a * (t * - t))) with (a * Rsqr t) by (unfold Rsqr; lra).
    rewrite sqrt_mult by (try apply Rle_0_sqr; lra).
    rewrite sqrt_Rsqr_abs, Rabs_left by exact Ht. lra.
  - subst t. rewrite Rabs_R0.
    destruct (Rlt_dec (a * (0 * 0)) 0); [exfalso; lra |].
    destruct (Rlt_dec 0 (a * (0 * 0))); [exfalso; lra | lra].
  - rewrite Rabs_right by lra.
    assert (Hsq : 0 < t * t) by nra.
    destruct (Rlt_dec (a * (t * t)) 0); [exfalso; nra |].
    destruct (Rlt_dec 0 (a * (t * t))) as [_ | Hn]; [| exfalso; nra].
    replace (a * (t * t)) with (a * Rsqr t) by (unfold Rsqr; lra).
    rewrite sqrt_mult by (try apply Rle_0_sqr; lra).
    rewrite sqrt_Rsqr_abs, Rabs_right by lra. reflexivity.
Qed.

(** The values the helper hands to the constructor for a parabola on an even
    grid, element by element. *)
Lemma parabola_signed_values (x0 h a m : R) (n : nat) (g : list R) (i : nat) :
  0 < h -> 0 < a ->
  x0 + h / 2 < m \/ m <= x0 ->
  m + h / 2 < x0 + h * INR (S n) \/ x0 + h * INR (S n) <= m ->
  np.gradient (parabola a m (uniform_grid x0 h (S (S n)))) = Ok g ->
  (i < S (S n))%nat ->
  np.sign1 (nth i g 0) * nth i (parabola a m (uniform_grid x0 h (S (S n)))) 0
  = a * ((x0 + h * INR i - m) * Rabs (x0 + h * INR i - m)).
Proof.
  intros Hh Ha Hfirst Hlast Hg Hi.
  set (xs := uniform_grid x0 h (S (S n))) in *.
  assert (Hxs : List.length xs = S (S n))
    by (unfold xs, uniform_grid; now rewrite length_map, length_seq).
  assert (Hd : List.length (parabola a m xs) = S (S n))
    by (unfold parabola; now rewrite length_map).
  assert (Hval : forall j, (j < S (S n))%nat ->
             nth j (parabola a m xs) 0 = a * (x0 + h * INR j - m) ^ 2).
  { intros j Hj. rewrite parabola_nth by lia. unfold xs.
    now rewrite uniform_grid_nth. }
  destruct (gradient_by_index (parabola a m xs)) as (g' & Hg' & _ & H0 & Hin & Hend);
    [lia |].
  rewrite Hg in Hg'. injection Hg' as <-. rewrite Hd in Hin, Hend.
  rewrite (Hval i Hi).
  assert (Hslope : exists K,
             nth i g 0 = a * h * K
             /\ (0 < x0 + h * INR i - m -> 0 < K)
             /\ (x0 + h * INR i - m < 0 -> K < 0)).
  { destruct i as [| i].
    - exists (2 * (x0 - m) + h).
      rewrite H0, (Hval 0%nat), (Hval 1%nat) by lia.
      change (INR 0) with 0. change (INR 1) with 1.
      split; [ring |]. split; intros Ht; destruct Hfirst; lra.
    - destruct (Nat.eq_dec i n) as [-> | Hne].
      + exists (2 * (x0 + h * INR (S n) - m) - h).
        replace (S (S n) - 1)%nat with (S n) in Hend by lia.
        replace (S (S n) - 2)%nat with n in Hend by lia.
        rewrite Hend, (Hval (S n)), (Hval n) by lia.
        rewrite S_INR in *.
        split; [ring |]. split; intros Ht; destruct Hlast; lra.
      + exists (2 * (x0 + h * INR (S i) - m)).
        rewrite Hin, (Hval (S (S i))), (Hval i) by lia.
        rewrite !S_INR.
        split; [field |]. split; intros Ht; lra. }
  destruct Hslope as (K & -> & Hpos & Hneg).
  assert (Hah : 0 < a * h) by (apply Rmult_lt_0_compat; assumption).
  apply signed_parabola_value.
  - intros Ht. apply Rmult_lt_0_compat; auto.
  - intros Ht. specialize (Hneg Ht). nra.
Qed.

Section ParabolicProfile.

Context {U : Units} {E : Engine}.

(** X16.  For a parabola [a * (x - m)^2], [a > 0], sampled on at least two
    evenly spaced parameter values whose first and last are not within half a
    step of the minimum on its far side (the first is at or after the minimum,
    or more than half a step before it; the last likewise), the helper with
    its default sqrt scale builds the engine on a straight line: the parameter
    values unchanged and, as values, [sqrt a * (x - m)].  Linear interpolation
    between the nodes is then exact for the profile. *)
Theorem parabola_becomes_a_line (x0 h a m : R) (n : nat) :
  0 < h -> 0 < a ->
  x0 + h / 2 < m \/ m <= x0 ->
  m + h / 2 < x0 + h * INR (S n) \/ x0 + h * INR (S n) <= m ->
  let xs := uniform_grid x0 h (S (S n)) in
  interpolate_likelihood_profile (Arr (np.array1 xs)) (parabola a m xs) None
  = (interp <- RegularGridInterpolator_init [np.array1 xs]
                 (np.array1 (map (fun x => sqrt a * (x - m)) xs))
                 [("bounds_error"%string, PyBool false); ("fill_value"%string, PyNone)] ;;
     Ok (mk_interpolator [new_scale LinearScale] (new_scale SqrtScale) None
           (inl interp))).
Proof.
  intros Hh Ha Hfirst Hlast xs.
  assert (Hxs : List.length xs = S (S n))
    by (unfold xs, uniform_grid; now rewrite length_map, length_seq).
  assert (Hd : List.length (parabola a m xs) = S (S n))
    by (unfold parabola; now rewrite length_map).
  destruct (gradient_by_index (parabola a m xs)) as (g & Hg & Hlen & _); [lia |].
  unfold interpolate_likelihood_profile. cbn [default]. rewrite Hg. cbn [bind].
  rewrite (init_with_valid_names [Arr (np.array1 xs)] _ None (Some "sqrt"%string)
             None None [] [LinearScale] SqrtScale eq_refl eq_refl).
  unfold scaled_grid, remembering, engine_options.
  cbn [combine map fst snd magnitude unit_of default skipn List.length app].
  rewrite sqrt_scale_elementwise.
  replace (np.elementwise signed_sqrt
             (np.multiply (np.array1 (map np.sign1 g)) (np.array1 (parabola a m xs))))
    with (np.array1 (map (fun x => sqrt a * (x - m)) xs)); [reflexivity |].
  unfold np.elementwise, np.multiply, np.array1. cbn [shape flat].
  rewrite !length_map, Hlen, Hd, Hxs. f_equal.
  subst xs.
  apply (nth_ext _ _ 0 0).
  - rewrite !length_map, zip_mul_length, length_map, Hlen, Hd, Hxs. lia.
  - intros i Hi. rewrite length_map, Hxs in Hi.
    rewrite (nth_map_inside _ _ 0) by lia.
    rewrite (nth_map_inside _ _ 0)
      by (rewrite zip_mul_length, length_map, Hlen, Hd; lia).
    rewrite zip_mul_nth, (nth_map_inside _ _ 0) by lia.
    rewrite uniform_grid_nth by lia.
    rewrite (parabola_signed_values x0 h a m n g i Hh Ha Hfirst Hlast Hg Hi).
    now rewrite signed_sqrt_of_signed_square.
Qed.

End ParabolicProfile.

(** ** More instances *)

Section MoreExamples.

#[local] Existing Instance Reference.units.
#[local] Existing Instance Reference.engine.

Lemma surplus_arrays_are_ignored_witness :
  (exists it : ScaledRegularGridInterpolator,
      ScaledRegularGridInterpolator_init [Arr (np.array1 [1; 2])]
        (Arr (np.array1 [1; 4])) None None None None [] = Ok it
      /\ ScaledRegularGridInterpolator_call it
           ([Arr (np.array1 [1])] ++ [Arr (np.array1 [7; 8])]) None None []
         = ScaledRegularGridInterpolator_call it [Arr (np.array1 [1])] None None [])
  /\ ScaledRegularGridInterpolator_init
       ([Arr (np.array1 [1; 2])] ++ [Arr (np.array1 [7; 8])])
       (Arr (np.array1 [1; 4])) (Some ["lin"%string]) None None None []
     = ScaledRegularGridInterpolator_init [Arr (np.array1 [1; 2])]
         (Arr (np.array1 [1; 4])) (Some ["lin"%string]) None None None [].
Proof.
  split.
  - eexists. split; [run_reference; reflexivity |].
    apply (proj1 (surplus_arrays_are_ignored _ [Arr (np.array1 [1])]
                    [Arr (np.array1 [7; 8])] None None []
                    (Arr (np.array1 [])) [] None None None)).
    simpl. lia.
  - apply (proj2 (surplus_arrays_are_ignored
                    (mk_interpolator [] (new_scale LinearScale) None
                       (inl (Reference.mk_rgi [] [] "linear" false Reference.FillNan)
                        : @RegularGridInterpolator Reference.engine
                          + @interp1d Reference.engine))
                    [Arr (np.array1 [1; 2])] [Arr (np.array1 [7; 8])] None None []
                    (Arr (np.array1 [1; 4])) ["lin"%string] None None None)).
    simpl. lia.
Defined.

Lemma query_in_a_convertible_unit_witness :
  let self := mk_interpolator [mk_scale LinearScale (Some Reference.TeV)]
                (new_scale LinearScale) None
                (inl (Reference.mk_rgi [[1; 2]] [1; 4] "linear" false
                        Reference.FillExtrapolate)) in
  ScaledRegularGridInterpolator_call self [Qty (np.array1 [1500]) Reference.GeV]
    None None []
  = ScaledRegularGridInterpolator_call self
      [Qty (np.elementwise (fun x => x * (1000 / 1000000)) (np.array1 [1500]))
         Reference.TeV]
      None None [].
Proof.
  intros self.
  apply (query_in_a_convertible_unit
           (@mk_scale Reference.units LinearScale (Some Reference.TeV)) []
           (new_scale LinearScale) None
           (inl (Reference.mk_rgi [[1; 2]] [1; 4] "linear" false
                   Reference.FillExtrapolate)
            : @RegularGridInterpolator Reference.engine + @interp1d Reference.engine)
           Reference.TeV Reference.GeV (1000 / 1000000) (np.array1 [1500]) []
           None None []).
  - reflexivity.
  - reflexivity.
  - simpl. unfold Reference.ref_conversion. simpl. f_equal. lra.
Defined.

Lemma parabola_becomes_a_line_witness :
  let xs := uniform_grid 1 1 5 in
  interpolate_likelihood_profile (Arr (np.array1 xs)) (parabola 1 3 xs) None
  = (interp <- RegularGridInterpolator_init [np.array1 xs]
                 (np.array1 (map (fun x => sqrt 1 * (x - 3)) xs))
                 [("bounds_error"%string, PyBool false); ("fill_value"%string, PyNone)] ;;
     Ok (mk_interpolator [new_scale LinearScale] (new_scale SqrtScale) None
           (inl interp))).
Proof.
  intros xs.
  apply (@parabola_becomes_a_line Reference.units Reference.engine 1 1 1 3 3).
  - lra.
  - lra.
  - left. lra.
  - left. simpl. lra.
Defined.

End MoreExamples.
